(** * seagull::registry -- a shallow embedding of [include/seagull/registry.h]

    The header wraps the Windows registry API.  The embedding follows the
    header top to bottom: the machine integers it computes with, the
    multi-string encoder of namespace [internals], then the [Key] methods as
    programs over an explicit world made of the registry (an arbitrary
    answering function), the process heap (the [std::unique_ptr] buffers)
    and the log of the registry calls issued so far. *)

From stdpp Require Import gmap list list_numbers.

Local Open Scope Z_scope.

(** ** Machine integers and characters *)

(** [DWORD] is an unsigned 32-bit integer, [size_t] and [ULONGLONG] unsigned
    64-bit integers (x64 Windows), [wchar_t] a 16-bit code unit and [BYTE] an
    octet.  All are carried by [Z]; conversions to a narrower type reduce
    modulo the width, as the C++ conversions do.  The type names are
    abbreviations. *)
Abbreviation DWORD := Z (only parsing).
Abbreviation ULONGLONG := Z (only parsing).
Abbreviation size_t := Z (only parsing).
Abbreviation wchar_t := Z (only parsing).
Abbreviation BYTE := Z (only parsing).

Definition to_DWORD (z : Z) : DWORD := z mod 2 ^ 32.
Definition to_size_t (z : Z) : size_t := z mod 2 ^ 64.
Definition to_wchar_t (z : Z) : wchar_t := z mod 2 ^ 16.

Definition sizeof_wchar_t : size_t := 2.
Definition sizeof_DWORD : size_t := 4.
Definition sizeof_ULONGLONG : size_t := 8.

(** [L'\0'] *)
Definition NUL : wchar_t := 0.

(** [std::wstring] and [std::vector<T>] are sequences; [size()] is the number
    of elements. *)
Abbreviation wstring := (list Z) (only parsing).

Definition size {T} (v : list T) : size_t := Z.of_nat (length v).

(** ** std::vector operations used by the header *)

Module vector.

(** [std::vector<T>(size_type count, const T& value)]: [count] copies of
    [value]. *)
Definition count_value {T} (count : size_t) (value : T) : list T :=
  replicate (Z.to_nat count) value.

(** [reserve] changes the capacity only, never the elements. *)
Definition reserve {T} (v : list T) (new_cap : size_t) : list T := v.

(** [v.insert(v.end(), first, last)] *)
Definition insert_end {T} (v : list T) (range : list T) : list T := v ++ range.

Definition push_back {T} (v : list T) (x : T) : list T := v ++ [x].

End vector.

(** ** namespace internals *)

Module internals.

(** The first loop of [build_multistring]: [totalLength] is a [DWORD] and
    each [+=] narrows the [size_t] sum back to 32 bits. *)
Definition total_length (strings : list wstring) : DWORD :=
  fold_left (fun totalLength s => to_DWORD (totalLength + (size s + 1)))
            strings 1.

(** [build_multistring].  In the branch for the empty list the header
    writes [std::vector<wchar_t>(L'\0', 2)]: the two arguments are an
    integral character and an [int], so overload resolution selects the
    (count, value) constructor with [count = L'\0'] and [value = 2]. *)
Definition build_multistring (strings : list wstring) : list wchar_t :=
  match strings with
  | [] => vector.count_value (to_size_t NUL) (to_wchar_t 2)
  | _ =>
      let totalLength := total_length strings in
      let ret := vector.reserve [] totalLength in
      let ret :=
        fold_left
          (fun ret s => vector.push_back (vector.insert_end ret s) NUL)
          strings ret in
      vector.push_back ret NUL
  end.

End internals.

(** ** The multi-string wire format, as the specification words it *)

(** Each string followed by one NUL, in list order, then one final NUL. *)
Definition multistring_wire (strings : list wstring) : list wchar_t :=
  concat (map (fun s => s ++ [NUL]) strings) ++ [NUL].

(** Sum over the strings of (length + 1), plus 1. *)
Definition multistring_wire_length (strings : list wstring) : nat :=
  (sum_list (map (fun s => length s + 1)%nat strings) + 1)%nat.

(** ** The registry API, as the header calls it *)

Abbreviation HKEY := Z (only parsing).
Abbreviation LSTATUS := Z (only parsing).
Abbreviation REGSAM := Z (only parsing).

(** An address of a heap block owned by a [std::unique_ptr]. *)
Abbreviation ptr := positive (only parsing).

(** Constants of the Windows SDK headers ([winerror.h], [winnt.h]) that the
    header and its documentation name. *)
Definition ERROR_SUCCESS : LSTATUS := 0.
Definition ERROR_FILE_NOT_FOUND : LSTATUS := 2.
Definition ERROR_ACCESS_DENIED : LSTATUS := 5.
Definition ERROR_MORE_DATA : LSTATUS := 234.
Definition ERROR_NO_MORE_ITEMS : LSTATUS := 259.

Definition REG_NONE : DWORD := 0.
Definition REG_SZ : DWORD := 1.
Definition REG_EXPAND_SZ : DWORD := 2.
Definition REG_BINARY : DWORD := 3.
Definition REG_DWORD : DWORD := 4.
Definition REG_MULTI_SZ : DWORD := 7.
Definition REG_QWORD : DWORD := 11.

Definition REG_OPTION_NON_VOLATILE : DWORD := 0.
Definition REG_CREATED_NEW_KEY : DWORD := 1.
Definition REG_OPENED_EXISTING_KEY : DWORD := 2.

Definition KEY_READ : REGSAM := 0x20019.
Definition KEY_WRITE : REGSAM := 0x20006.

(** The out-parameters of [RegQueryInfoKeyW] that the header ever asks
    for. *)
Record key_info := {
  cSubKeys : DWORD;
  cbMaxSubKeyLen : DWORD;
  cValues : DWORD;
  cbMaxValueNameLen : DWORD;
  cbMaxValueLen : DWORD
}.

(** Which of those out-pointers a call passes non-null. *)
Record info_request := {
  lpcSubKeys : bool;
  lpcbMaxSubKeyLen : bool;
  lpcValues : bool;
  lpcbMaxValueNameLen : bool;
  lpcbMaxValueLen : bool
}.

(** One call of the registry API with the arguments the header passes.
    Pointer arguments that are always [nullptr] in the header are left out;
    an input buffer is given by the bytes it designates, an output buffer by
    its address, an optional pointer by an [option] or a flag. *)
Inductive call :=
| RegCreateKeyExW (hKey : HKEY) (lpSubKey : wstring) (Reserved : DWORD)
    (lpClass : DWORD) (dwOptions : DWORD) (samDesired : REGSAM)
    (lpSecurityAttributes : option Z) (lpdwDisposition : bool)
| RegOpenKeyExW (hKey : HKEY) (lpSubKey : wstring) (ulOptions : DWORD)
    (samDesired : REGSAM)
| RegSetValueExW (hKey : HKEY) (lpValueName : wstring) (Reserved : DWORD)
    (dwType : DWORD) (lpData : list BYTE) (cbData : DWORD)
| RegQueryInfoKeyW (hKey : HKEY) (request : info_request)
| RegEnumKeyExW (hKey : HKEY) (dwIndex : DWORD) (lpName : ptr)
    (cchName : DWORD)
| RegEnumValueW (hKey : HKEY) (dwIndex : DWORD) (lpValueName : ptr)
    (cchValueName : DWORD) (lpType : bool) (lpData : option ptr)
    (lpcbData : option DWORD)
| RegDeleteValueW (hKey : HKEY) (lpValueName : wstring)
| RegDeleteKeyExW (hKey : HKEY) (lpSubKey : wstring) (samDesired : REGSAM)
    (Reserved : DWORD)
| RegDeleteTreeW (hKey : HKEY) (lpSubKey : wstring).

(** What a call hands back: its status and the out-parameters.  A field
    that the call at hand does not produce is not looked at.  An enumerated
    item is given by its name and its data; the call copies the name,
    NUL-terminated, and the data into the caller's buffers and stores their
    lengths through the in/out length pointers. *)
Record response := {
  status : LSTATUS;
  phkResult : HKEY;
  dwDisposition : DWORD;
  info : key_info;
  item_name : wstring;
  item_type : DWORD;
  item_data : list BYTE
}.

Abbreviation event := (call * response)%type (only parsing).

Definition succeeded (ev : event) : Prop := status ev.2 = ERROR_SUCCESS.

(** The bytes a [RegSetValueExW] call makes the registry read: the first
    [cbData] bytes behind [lpData]. *)
Definition payload (c : call) : list BYTE :=
  match c with
  | RegSetValueExW _ _ _ _ lpData cbData => take (Z.to_nat cbData) lpData
  | _ => []
  end.

(** ** Memory *)

(** A block is the list of its elements.  An access past the end of a block
    is undefined behaviour in C++; the operations below stop at the end of
    the block instead.  No such access occurs when the answers of the
    registry fit the buffers they were given; what is said below about the
    contents of names and values is said for such answers. *)

(** Storing [content] at the start of a block keeps the block's capacity. *)
Definition buf_store (content old : list Z) : list Z :=
  take (length old) (content ++ drop (length content) old).

(** Little-endian object representation of an unsigned integer of [n]
    bytes. *)
Fixpoint le_bytes (n : nat) (z : Z) : list BYTE :=
  match n with
  | O => []
  | S n' => z mod 256 :: le_bytes n' (z / 256)
  end.

(** The bytes behind [reinterpret_cast<LPCBYTE>(s.c_str())]: the code units
    of [s] and the terminator [c_str()] guarantees, two bytes each. *)
Definition c_str_bytes (s : wstring) : list BYTE :=
  concat (map (le_bytes 2) (s ++ [NUL])).

(** The bytes of a [std::vector<wchar_t>] behind [data()]. *)
Definition wchar_bytes (v : list wchar_t) : list BYTE :=
  concat (map (le_bytes 2) v).

(** ** struct Value *)

Record Value := {
  type : DWORD;
  data : ptr;          (* std::unique_ptr<BYTE[]> *)
  length_ : DWORD      (* the member is called [length] *)
}.

(** ** class Key *)

Record Key := { m_hKey : HKEY }.

(** [Key() noexcept = default]: the handle wrapper starts out empty. *)
Definition Key_default : Key := {| m_hKey := 0 |}.

Definition Key_get (this : Key) : HKEY := m_hKey this.

Definition Key_is_valid (this : Key) : bool := negb (m_hKey this =? 0).

Definition Key_operator_bool (this : Key) : bool := Key_is_valid this.

(** ** Programs *)

Inductive result (A : Type) :=
| Ok (a : A)
| Err (e : LSTATUS).   (* a thrown [wil::ResultException] and its status *)
Arguments Ok {A} a.
Arguments Err {A} e.

Section Programs.

(** The registry is any state with any way of answering calls. *)
Context {Σ : Type} (answer : call -> Σ -> response * Σ).

(** [calls] and [allocations] are logs: every registry call with its
    answer, and every block obtained from [std::make_unique] with its
    number of elements, oldest first. *)
Record world := {
  registry : Σ;
  heap : gmap ptr (list Z);
  calls : list event;
  allocations : list (ptr * size_t)
}.

Definition M (A : Type) : Type := world -> result A * world.

Definition ret {A} (a : A) : M A := fun w => (Ok a, w).

Definition throw {A} (e : LSTATUS) : M A := fun w => (Err e, w).

Definition bind {A B} (m : M A) (k : A -> M B) : M B :=
  fun w =>
    match m w with
    | (Ok a, w') => k a w'
    | (Err e, w') => (Err e, w')
    end.

(** [attempt m] hands an exception thrown by [m] to the code that follows,
    the way the objects of the enclosing scope see it go by when they are
    destroyed. *)
Definition attempt {A} (m : M A) : M (result A) :=
  fun w => let '(r, w') := m w in (Ok r, w').

(** What a call writes into the caller's buffers, on success. *)
Definition out_writes (c : call) (r : response) (h : gmap ptr (list Z))
  : gmap ptr (list Z) :=
  if status r =? ERROR_SUCCESS then
    match c with
    | RegEnumKeyExW _ _ lpName _ =>
        alter (buf_store (item_name r ++ [NUL])) lpName h
    | RegEnumValueW _ _ lpValueName _ _ lpData _ =>
        let h := alter (buf_store (item_name r ++ [NUL])) lpValueName h in
        match lpData with
        | Some p => alter (buf_store (item_data r)) p h
        | None => h
        end
    | _ => h
    end
  else h.

(** Issue one call: the registry answers and moves on, the out-buffers
    are written, the call is logged. *)
Definition os_call (c : call) : M response :=
  fun w =>
    let '(r, σ) := answer c (registry w) in
    (Ok r, {| registry := σ;
              heap := out_writes c r (heap w);
              calls := calls w ++ [(c, r)];
              allocations := allocations w |}).

(** [THROW_IF_WIN32_ERROR(::Reg...(...))] of the Windows Implementation
    Library: any status but [ERROR_SUCCESS] is thrown. *)
Definition THROW_IF_WIN32_ERROR (c : call) : M response :=
  bind (os_call c) (fun r =>
    if status r =? ERROR_SUCCESS then ret r else throw (status r)).

(** [std::make_unique<T[]>(n)]: a new block of [n] value-initialised
    elements at an address that no live block has. *)
Definition make_unique (n : size_t) : M ptr :=
  fun w =>
    let p := fresh (dom (heap w)) in
    (Ok p, {| registry := registry w;
              heap := <[p := replicate (Z.to_nat n) 0]> (heap w);
              calls := calls w;
              allocations := allocations w ++ [(p, n)] |}).

(** The destructor of a [std::unique_ptr<T[]>]. *)
Definition unique_ptr_destroy (p : ptr) : M unit :=
  fun w =>
    (Ok tt, {| registry := registry w;
               heap := delete p (heap w);
               calls := calls w;
               allocations := allocations w |}).

(** [std::memcpy(dst, src, n)] *)
Definition memcpy (dst src : ptr) (n : size_t) : M unit :=
  fun w =>
    let bytes := take (Z.to_nat n) (default [] (heap w !! src)) in
    (Ok tt, {| registry := registry w;
               heap := alter (buf_store bytes) dst (heap w);
               calls := calls w;
               allocations := allocations w |}).

(** [std::wstring(buf, n)]: the first [n] code units behind [buf]. *)
Definition wstring_of (buf : ptr) (n : size_t) : M wstring :=
  fun w => (Ok (take (Z.to_nat n) (default [] (heap w !! buf))), w).

Notation "x <- m ;; k" := (bind m (fun x => k))
  (at level 100, m at next level, right associativity, only parsing).

(** [for (DWORD i = 0; i < n; ++i) body]: the body runs for
    [i = 0, ..., n-1] on the loop-carried local [acc].  The loop hands back
    that local as it stood when the loop was left and, when the body threw,
    the exception in flight, so that the code after the loop can destroy
    the locals of the function in the order C++ does. *)
Fixpoint for_loop {A} (n : nat) (i : DWORD) (body : DWORD -> A -> M A)
    (acc : A) : M (A * option LSTATUS) :=
  match n with
  | O => ret (acc, None)
  | S n' =>
      r <- attempt (body i acc) ;;
      match r with
      | Ok acc' => for_loop n' (to_DWORD (i + 1)) body acc'
      | Err e => ret (acc, Some e)
      end
  end.

(** *** Constructors and thin wrappers *)

(** [Key::create], the overload with six parameters.  The assignment
    [*(&m_hKey) = hKey] makes the wrapper hold the new handle; what the
    wrapper does with a handle it held before is the Windows
    Implementation Library's and is not modelled. *)
Definition Key_create_ex (this : Key) (hKeyParent : HKEY) (subKey : wstring)
    (desiredAccess : REGSAM) (options : DWORD)
    (securityAttributes : option Z) (disposition : bool) : M Key :=
  r <- THROW_IF_WIN32_ERROR
         (RegCreateKeyExW hKeyParent subKey 0 REG_NONE options desiredAccess
                          securityAttributes disposition) ;;
  let hKey := phkResult r in
  ret {| m_hKey := hKey |}.

(** [Key::create], the overload with three parameters. *)
Definition Key_create (this : Key) (hKeyParent : HKEY) (subKey : wstring)
    (desiredAccess : REGSAM) : M Key :=
  Key_create_ex this hKeyParent subKey desiredAccess
                REG_OPTION_NON_VOLATILE None false.

(** The default argument [desiredAccess = KEY_READ | KEY_WRITE] of
    [create] and [open]. *)
Definition default_desiredAccess : REGSAM := Z.lor KEY_READ KEY_WRITE.

(** [Key::Key(HKEY, const std::wstring &)]: the object under construction
    starts from its default member initialiser; a throwing constructor
    yields no object. *)
Definition Key_new (hKeyParent : HKEY) (subKey : wstring) : M Key :=
  Key_create Key_default hKeyParent subKey default_desiredAccess.

(** [Key::Key(HKEY, const std::wstring &, REGSAM)] *)
Definition Key_new_access (hKeyParent : HKEY) (subKey : wstring)
    (desiredAccess : REGSAM) : M Key :=
  Key_create Key_default hKeyParent subKey desiredAccess.

Definition Key_open (this : Key) (hKeyParent : HKEY) (subKey : wstring)
    (desiredAccess : REGSAM) : M Key :=
  r <- THROW_IF_WIN32_ERROR
         (RegOpenKeyExW hKeyParent subKey REG_NONE desiredAccess) ;;
  let hKey := phkResult r in
  ret {| m_hKey := hKey |}.

(** *** Value setters *)

Definition Key_set_dword_value (this : Key) (valueName : wstring)
    (val : DWORD) : M unit :=
  _ <- THROW_IF_WIN32_ERROR
    (RegSetValueExW (Key_get this) valueName 0 REG_DWORD
                    (le_bytes 4 val) sizeof_DWORD) ;;
  ret tt.

Definition Key_set_qword_value (this : Key) (valueName : wstring)
    (val : ULONGLONG) : M unit :=
  _ <- THROW_IF_WIN32_ERROR
    (RegSetValueExW (Key_get this) valueName 0 REG_QWORD
                    (le_bytes 8 val) sizeof_ULONGLONG) ;;
  ret tt.

Definition Key_set_string_value (this : Key) (valueName : wstring)
    (val : wstring) : M unit :=
  _ <- THROW_IF_WIN32_ERROR
    (RegSetValueExW (Key_get this) valueName 0 REG_SZ
                    (c_str_bytes val)
                    (to_DWORD (to_size_t ((size val + 1) * sizeof_wchar_t)))) ;;
  ret tt.

Definition Key_set_multistring_value (this : Key) (valueName : wstring)
    (val : list wstring) : M unit :=
  let buf := internals.build_multistring val in
  _ <- THROW_IF_WIN32_ERROR
    (RegSetValueExW (Key_get this) valueName 0 REG_MULTI_SZ
                    (wchar_bytes buf)
                    (to_DWORD (to_size_t (size buf * sizeof_wchar_t)))) ;;
  ret tt.

Definition Key_set_expanded_string_value (this : Key) (valueName : wstring)
    (val : wstring) : M unit :=
  _ <- THROW_IF_WIN32_ERROR
    (RegSetValueExW (Key_get this) valueName 0 REG_EXPAND_SZ
                    (c_str_bytes val)
                    (to_DWORD (to_size_t ((size val + 1) * sizeof_wchar_t)))) ;;
  ret tt.

(** [set_binary_value(valueName, LPCVOID val, DWORD size)]: [val] stands
    for the bytes behind the caller's pointer. *)
Definition Key_set_binary_value_raw (this : Key) (valueName : wstring)
    (val : list BYTE) (size_ : DWORD) : M unit :=
  _ <- THROW_IF_WIN32_ERROR
    (RegSetValueExW (Key_get this) valueName 0 REG_BINARY val size_) ;;
  ret tt.

(** [set_binary_value(valueName, std::vector<BYTE> val)] *)
Definition Key_set_binary_value (this : Key) (valueName : wstring)
    (val : list BYTE) : M unit :=
  _ <- THROW_IF_WIN32_ERROR
    (RegSetValueExW (Key_get this) valueName 0 REG_BINARY val
                    (to_DWORD (size val))) ;;
  ret tt.

(** *** Vector enumerators *)

Definition request_subkeys : info_request :=
  {| lpcSubKeys := true; lpcbMaxSubKeyLen := true; lpcValues := false;
     lpcbMaxValueNameLen := false; lpcbMaxValueLen := false |}.

Definition request_values : info_request :=
  {| lpcSubKeys := false; lpcbMaxSubKeyLen := false; lpcValues := true;
     lpcbMaxValueNameLen := true; lpcbMaxValueLen := true |}.

Definition request_value_names : info_request :=
  {| lpcSubKeys := false; lpcbMaxSubKeyLen := false; lpcValues := true;
     lpcbMaxValueNameLen := true; lpcbMaxValueLen := false |}.

Definition enum_subkeys_body (hKey : HKEY) (maxSubKeyNameLength : DWORD)
    (buf : ptr) (i : DWORD) (ret_ : list wstring) : M (list wstring) :=
  let subKeyNameLength := maxSubKeyNameLength in
  r <- THROW_IF_WIN32_ERROR
         (RegEnumKeyExW hKey i buf subKeyNameLength) ;;
  let subKeyNameLength := to_DWORD (size (item_name r)) in
  name <- wstring_of buf subKeyNameLength ;;
  ret (vector.push_back ret_ name).

Definition Key_enum_subkeys (this : Key) : M (list wstring) :=
  q <- THROW_IF_WIN32_ERROR
         (RegQueryInfoKeyW (Key_get this) request_subkeys) ;;
  let subKeyCount := to_DWORD (cSubKeys (info q)) in
  let maxSubKeyNameLength := to_DWORD (cbMaxSubKeyLen (info q)) in
  let maxSubKeyNameLength := to_DWORD (maxSubKeyNameLength + 1) in
  buf <- make_unique maxSubKeyNameLength ;;
  swept <- for_loop (Z.to_nat subKeyCount) 0
                    (enum_subkeys_body (Key_get this) maxSubKeyNameLength buf)
                    [] ;;
  _ <- unique_ptr_destroy buf ;;
  match swept with
  | (ret_, None) => ret ret_
  | (_, Some e) => throw e
  end.

Definition enum_values_body (hKey : HKEY)
    (maxValNameLength maxValLength : DWORD) (nameBuf valBuf : ptr)
    (i : DWORD) (ret_ : list (wstring * Value))
    : M (list (wstring * Value)) :=
  let valNameLength := maxValNameLength in
  let valLength := maxValLength in
  r <- THROW_IF_WIN32_ERROR
         (RegEnumValueW hKey i nameBuf valNameLength true
                        (Some valBuf) (Some valLength)) ;;
  let valNameLength := to_DWORD (size (item_name r)) in
  let type_ := to_DWORD (item_type r) in
  let valLength := to_DWORD (size (item_data r)) in
  valBufOther <- make_unique valLength ;;
  _ <- memcpy valBufOther valBuf valLength ;;
  name <- wstring_of nameBuf valNameLength ;;
  ret (vector.push_back ret_
         (name, {| type := type_; data := valBufOther;
                   length_ := valLength |})).

(** The destructor of [std::vector<std::pair<std::wstring, Value>>]
    destroys every [Value], hence every buffer a [Value] owns. *)
Fixpoint destroy_values (v : list (wstring * Value)) : M unit :=
  match v with
  | [] => ret tt
  | (_, val) :: rest =>
      _ <- unique_ptr_destroy (data val) ;; destroy_values rest
  end.

Definition Key_enum_values (this : Key) : M (list (wstring * Value)) :=
  q <- THROW_IF_WIN32_ERROR
         (RegQueryInfoKeyW (Key_get this) request_values) ;;
  let valCount := to_DWORD (cValues (info q)) in
  let maxValNameLength := to_DWORD (cbMaxValueNameLen (info q)) in
  let maxValLength := to_DWORD (cbMaxValueLen (info q)) in
  let maxValNameLength := to_DWORD (maxValNameLength + 1) in
  nameBuf <- make_unique maxValNameLength ;;
  valBuf <- make_unique maxValLength ;;
  swept <- for_loop (Z.to_nat valCount) 0
                    (enum_values_body (Key_get this) maxValNameLength
                                      maxValLength nameBuf valBuf)
                    [] ;;
  _ <- unique_ptr_destroy valBuf ;;
  _ <- unique_ptr_destroy nameBuf ;;
  match swept with
  | (ret_, None) => ret ret_
  | (ret_, Some e) => _ <- destroy_values ret_ ;; throw e
  end.

Definition enum_value_names_body (hKey : HKEY) (maxValNameLength : DWORD)
    (nameBuf : ptr) (i : DWORD) (ret_ : list wstring) : M (list wstring) :=
  let valNameLength := maxValNameLength in
  r <- THROW_IF_WIN32_ERROR
         (RegEnumValueW hKey i nameBuf valNameLength false None None) ;;
  let valNameLength := to_DWORD (size (item_name r)) in
  name <- wstring_of nameBuf valNameLength ;;
  ret (vector.push_back ret_ name).

Definition Key_enum_value_names (this : Key) : M (list wstring) :=
  q <- THROW_IF_WIN32_ERROR
         (RegQueryInfoKeyW (Key_get this) request_value_names) ;;
  let valCount := to_DWORD (cValues (info q)) in
  let maxValNameLength := to_DWORD (cbMaxValueNameLen (info q)) in
  let maxValNameLength := to_DWORD (maxValNameLength + 1) in
  nameBuf <- make_unique maxValNameLength ;;
  swept <- for_loop (Z.to_nat valCount) 0
                    (enum_value_names_body (Key_get this) maxValNameLength
                                           nameBuf)
                    [] ;;
  _ <- unique_ptr_destroy nameBuf ;;
  match swept with
  | (ret_, None) => ret ret_
  | (_, Some e) => throw e
  end.

(** *** Generic registry functions *)

Definition Key_delete_value (this : Key) (valueName : wstring) : M unit :=
  _ <- THROW_IF_WIN32_ERROR (RegDeleteValueW (Key_get this) valueName) ;;
  ret tt.

Definition Key_delete_key (this : Key) (subKey : wstring)
    (desiredAccess : REGSAM) : M unit :=
  _ <- THROW_IF_WIN32_ERROR
    (RegDeleteKeyExW (Key_get this) subKey desiredAccess 0) ;;
  ret tt.

Definition Key_delete_tree (this : Key) (subKey : wstring) : M unit :=
  _ <- THROW_IF_WIN32_ERROR (RegDeleteTreeW (Key_get this) subKey) ;;
  ret tt.

End Programs.

Arguments world Σ : clear implicits.
Arguments M Σ A : clear implicits.

Arguments registry {Σ} w.
Arguments heap {Σ} w.
Arguments calls {Σ} w.
Arguments allocations {Σ} w.

(** A world before any call, with an empty heap. *)
Definition initial_world {Σ} (σ : Σ) : world Σ :=
  {| registry := σ; heap := ∅; calls := []; allocations := [] |}.

(** ** A small registry to run the programs on *)

(** One key with its subkeys and its values, answering as the documentation
    of the API describes: items are enumerated in stored order, a buffer
    that cannot hold an item and its terminator is refused with
    [ERROR_MORE_DATA], an index past the end with [ERROR_NO_MORE_ITEMS], an
    absent name with [ERROR_FILE_NOT_FOUND].  It serves to run the programs
    on concrete inputs; the general results below are about any registry. *)
Module sim.

Record state := {
  subkeys : list wstring;
  values : list (wstring * (DWORD * list BYTE))
}.

Definition no_info : key_info :=
  {| cSubKeys := 0; cbMaxSubKeyLen := 0; cValues := 0;
     cbMaxValueNameLen := 0; cbMaxValueLen := 0 |}.

Definition reply (e : LSTATUS) : response :=
  {| status := e; phkResult := 0; dwDisposition := 0; info := no_info;
     item_name := []; item_type := 0; item_data := [] |}.

Definition reply_handle (h : HKEY) (disposition : DWORD) : response :=
  {| status := ERROR_SUCCESS; phkResult := h; dwDisposition := disposition;
     info := no_info; item_name := []; item_type := 0; item_data := [] |}.

Definition reply_item (name : wstring) (ty : DWORD) (bytes : list BYTE)
  : response :=
  {| status := ERROR_SUCCESS; phkResult := 0; dwDisposition := 0;
     info := no_info; item_name := name; item_type := ty;
     item_data := bytes |}.

Definition longest {A} (l : list (list A)) : Z :=
  foldr (fun x m => Z.max (size x) m) 0 l.

Definition wstring_eqb (a b : wstring) : bool := bool_decide (a = b).

Fixpoint index_of (name : wstring) (l : list wstring) : option nat :=
  match l with
  | [] => None
  | x :: rest =>
      if wstring_eqb x name then Some O else S <$> index_of name rest
  end.

Definition handle_of (i : nat) : HKEY := 256 + Z.of_nat i.

Definition query (σ : state) : key_info :=
  {| cSubKeys := size (subkeys σ);
     cbMaxSubKeyLen := longest (subkeys σ);
     cValues := size (values σ);
     cbMaxValueNameLen := longest (map fst (values σ));
     cbMaxValueLen := longest (map (fun v => v.2.2) (values σ)) |}.

Definition set_value (name : wstring) (ty : DWORD) (bytes : list BYTE)
    (vs : list (wstring * (DWORD * list BYTE)))
  : list (wstring * (DWORD * list BYTE)) :=
  match index_of name (map fst vs) with
  | Some i => <[i := (name, (ty, bytes))]> vs
  | None => vs ++ [(name, (ty, bytes))]
  end.

Definition answer (c : call) (σ : state) : response * state :=
  match c with
  | RegCreateKeyExW _ sub _ _ _ _ _ _ =>
      match index_of sub (subkeys σ) with
      | Some i => (reply_handle (handle_of i) REG_OPENED_EXISTING_KEY, σ)
      | None =>
          (reply_handle (handle_of (length (subkeys σ))) REG_CREATED_NEW_KEY,
           {| subkeys := subkeys σ ++ [sub]; values := values σ |})
      end
  | RegOpenKeyExW _ sub _ _ =>
      match index_of sub (subkeys σ) with
      | Some i => (reply_handle (handle_of i) 0, σ)
      | None => (reply ERROR_FILE_NOT_FOUND, σ)
      end
  | RegSetValueExW _ name _ ty lpData cbData =>
      (reply ERROR_SUCCESS,
       {| subkeys := subkeys σ;
          values := set_value name ty (take (Z.to_nat cbData) lpData)
                              (values σ) |})
  | RegQueryInfoKeyW _ _ =>
      ({| status := ERROR_SUCCESS; phkResult := 0; dwDisposition := 0;
          info := query σ; item_name := []; item_type := 0;
          item_data := [] |}, σ)
  | RegEnumKeyExW _ i _ cch =>
      match subkeys σ !! Z.to_nat i with
      | None => (reply ERROR_NO_MORE_ITEMS, σ)
      | Some name =>
          if size name <? cch then (reply_item name 0 [], σ)
          else (reply ERROR_MORE_DATA, σ)
      end
  | RegEnumValueW _ i _ cch _ _ cb =>
      match values σ !! Z.to_nat i with
      | None => (reply ERROR_NO_MORE_ITEMS, σ)
      | Some (name, (ty, bytes)) =>
          if (size name <? cch)
             && (match cb with Some n => size bytes <=? n | None => true end)
          then (reply_item name ty bytes, σ)
          else (reply ERROR_MORE_DATA, σ)
      end
  | RegDeleteValueW _ name =>
      match index_of name (map fst (values σ)) with
      | Some i =>
          (reply ERROR_SUCCESS,
           {| subkeys := subkeys σ; values := delete i (values σ) |})
      | None => (reply ERROR_FILE_NOT_FOUND, σ)
      end
  | RegDeleteKeyExW _ sub _ _ | RegDeleteTreeW _ sub =>
      match index_of sub (subkeys σ) with
      | Some i =>
          (reply ERROR_SUCCESS,
           {| subkeys := delete i (subkeys σ); values := values σ |})
      | None => (reply ERROR_FILE_NOT_FOUND, σ)
      end
  end.

(** The same registry, except that enumerating the item at index [k] is
    refused. *)
Definition answer_denying (k : DWORD) (c : call) (σ : state)
  : response * state :=
  match c with
  | RegEnumKeyExW _ i _ _ | RegEnumValueW _ i _ _ _ _ _ =>
      if i =? k then (reply ERROR_ACCESS_DENIED, σ) else answer c σ
  | _ => answer c σ
  end.

(** A key with three subkeys and three values. *)
Definition sample : state :=
  {| subkeys := [[65]; [66; 66]; [67; 67; 67]];
     values := [([110], (REG_DWORD, [42; 0; 0; 0]));
                ([115], (REG_SZ, [104; 0; 105; 0; 0; 0]));
                ([98], (REG_BINARY, [1; 2; 3]))] |}.

(** What [enum_values] returns on [sample], run on an empty heap. *)
Definition sample_values : list (wstring * Value) :=
  [([110], {| type := REG_DWORD; data := 3%positive; length_ := 4 |});
   ([115], {| type := REG_SZ; data := 4%positive; length_ := 6 |});
   ([98], {| type := REG_BINARY; data := 5%positive; length_ := 3 |})].

End sim.

(** ** Vocabulary of the results *)

Section Vocabulary.

Context {Σ : Type} (answer : call -> Σ -> response * Σ).

(** The answer the registry gives to the call [c] in the world [w], and
    the world that the call leaves. *)
Definition reply_to (c : call) (w : world Σ) : response :=
  (answer c (registry w)).1.

Definition called (c : call) (w : world Σ) : world Σ :=
  {| registry := (answer c (registry w)).2;
     heap := out_writes c (reply_to c w) (heap w);
     calls := calls w ++ [(c, reply_to c w)];
     allocations := allocations w |}.

(** The body shared by the two sweeps that collect names only: the call
    [mk i] fills [buf], the name is read back from [buf]. *)
Definition sweep_names_body (mk : DWORD -> call) (buf : ptr)
    (i : DWORD) (ret_ : list wstring) : M Σ (list wstring) :=
  bind (THROW_IF_WIN32_ERROR answer (mk i)) (fun r =>
  bind (wstring_of buf (to_DWORD (size (item_name r)))) (fun name =>
  ret (vector.push_back ret_ name))).

(** The shape shared by [enum_subkeys] and [enum_value_names]: the size
    query [Q], whose answer gives the count and the longest name, one
    buffer, the sweep, the destruction of the buffer. *)
Definition enum_names (Q : call) (count longest : key_info -> DWORD)
    (mk : ptr -> DWORD -> DWORD -> call) : M Σ (list wstring) :=
  bind (THROW_IF_WIN32_ERROR answer Q) (fun q =>
  let cap := to_DWORD (to_DWORD (longest (info q)) + 1) in
  bind (make_unique cap) (fun buf =>
  bind (for_loop (Z.to_nat (to_DWORD (count (info q)))) 0
                 (sweep_names_body (mk buf cap) buf) []) (fun swept =>
  bind (unique_ptr_destroy buf) (fun _ =>
  match swept with
  | (ret_, None) => ret ret_
  | (_, Some e) => throw e
  end)))).

End Vocabulary.

(** How a returned [Value] [nv.2], named [nv.1], relates to the answer of
    the sweep call [ev] it was built from, in the heap [h]: the length and
    the type are the ones the call stored; the block of the [Value] is
    live; when the item fits the capacities [capN] and [capV] of the sweep
    buffers, the name and the bytes are the item's. *)
Definition value_read (capN capV : DWORD) (h : gmap ptr (list Z))
    (nv : wstring * Value) (ev : event) : Prop :=
  length_ nv.2 = to_DWORD (size (item_data ev.2))
  /\ type nv.2 = to_DWORD (item_type ev.2)
  /\ is_Some (h !! data nv.2)
  /\ (size (item_name ev.2) < capN -> nv.1 = item_name ev.2)
  /\ (size (item_data ev.2) <= capV ->
      h !! data nv.2 = Some (item_data ev.2)).

(** The call that the sweep of [enum_values] issues for the index [i]. *)
Definition enum_value_call (hKey : HKEY) (capN capV : DWORD)
    (nameBuf valBuf : ptr) (i : DWORD) : call :=
  RegEnumValueW hKey i nameBuf capN true (Some valBuf) (Some capV).

(** The index a sweep call asks for. *)
Definition enum_index (c : call) : option DWORD :=
  match c with
  | RegEnumKeyExW _ i _ _ | RegEnumValueW _ i _ _ _ _ _ => Some i
  | _ => None
  end.

(** How a run treats failure, read off the calls [new] it issued and its
    result: a normal return means every call succeeded; an exception carries
    the status of the last call issued, which is the only one that failed. *)
Definition first_failure_surfaces {A} (r : result A) (new : list event)
  : Prop :=
  match r with
  | Ok _ => Forall succeeded new
  | Err e =>
      exists done last,
        new = done ++ [last] /\ Forall succeeded done
        /\ status last.2 = e /\ e <> ERROR_SUCCESS
  end.

(** The same for a sweep that was left with the exception [exn] in flight:
    [done] are the calls that succeeded. *)
Definition sweep_calls (new : list event) (exn : option LSTATUS)
    (done : list event) : Prop :=
  Forall succeeded done
  /\ match exn with
     | None => new = done
     | Some e =>
         exists last,
           new = done ++ [last] /\ status last.2 = e /\ e <> ERROR_SUCCESS
     end.

(** What the documentation of the API promises about an answer that
    reports success: a handle handed back is not null; the counts and
    lengths that were asked for are [DWORD]s, and a longest name and its
    terminator can still be counted in a [DWORD]; an enumerated item fits,
    its name together with the terminator, the capacities that the call
    passed in. *)
Definition is_DWORD (z : Z) : bool := (0 <=? z) && (z <? 2 ^ 32).

Definition asked (flag : bool) (check : bool) : bool := implb flag check.

Definition api_contract (ev : event) : bool :=
  negb (status ev.2 =? ERROR_SUCCESS)
  || match ev.1 with
     | RegCreateKeyExW _ _ _ _ _ _ _ _ | RegOpenKeyExW _ _ _ _ =>
         negb (phkResult ev.2 =? 0)
     | RegQueryInfoKeyW _ req =>
         asked (lpcSubKeys req) (is_DWORD (cSubKeys (info ev.2)))
         && asked (lpcbMaxSubKeyLen req)
                  (is_DWORD (cbMaxSubKeyLen (info ev.2))
                   && is_DWORD (cbMaxSubKeyLen (info ev.2) + 1))
         && asked (lpcValues req) (is_DWORD (cValues (info ev.2)))
         && asked (lpcbMaxValueNameLen req)
                  (is_DWORD (cbMaxValueNameLen (info ev.2))
                   && is_DWORD (cbMaxValueNameLen (info ev.2) + 1))
         && asked (lpcbMaxValueLen req)
                  (is_DWORD (cbMaxValueLen (info ev.2)))
     | RegEnumKeyExW _ _ _ cch => size (item_name ev.2) <? cch
     | RegEnumValueW _ _ _ cch lpType _ cb =>
         (size (item_name ev.2) <? cch)
         && asked lpType (is_DWORD (item_type ev.2))
         && match cb with
            | Some n => size (item_data ev.2) <=? n
            | None => true
            end
     | _ => true
     end.

(** ** The statements about the enumerators *)

(** The run [run], started in [w], of an enumerator whose size query is [Q]
    and whose count is the field [count]: a returned collection has as many
    entries as the count that the query stored; the sweep asked for the
    indices 0, 1, ... in this order, one entry each; an entry is named as
    the item of its index whenever the answer kept to the contract. *)
Definition count_as_reported {Σ A} (name_of : A -> wstring) (Q : call)
    (count : key_info -> DWORD) (w : world Σ)
    (run : result (list A) * world Σ) : Prop :=
  forall ret_, run.1 = Ok ret_ ->
    exists q sweep,
      calls run.2 = calls w ++ (Q, q) :: sweep
      /\ size ret_ = to_DWORD (count (info q))
      /\ (fun ev => enum_index ev.1) <$> sweep = Some <$> seqZ 0 (size ret_)
      /\ Forall2 (fun x ev => api_contract ev = true ->
                              name_of x = item_name ev.2) ret_ sweep.

(** All or nothing: the run issued the size query and a sweep; it treats
    failure as [first_failure_surfaces] says; a sweep call that failed
    makes the whole run fail with the status of that call; a failed run
    leaves the heap as it found it, so that nothing collected survives; a
    returned collection is complete. *)
Definition all_or_nothing {Σ A} (Q : call) (count : key_info -> DWORD)
    (w : world Σ) (run : result (list A) * world Σ) : Prop :=
  exists q sweep,
    calls run.2 = calls w ++ (Q, q) :: sweep
    /\ first_failure_surfaces run.1 ((Q, q) :: sweep)
    /\ (forall ev, ev ∈ sweep -> ~ succeeded ev -> run.1 = Err (status ev.2))
    /\ (forall e, run.1 = Err e -> heap run.2 = heap w)
    /\ (forall ret_, run.1 = Ok ret_ ->
          Forall succeeded sweep /\ size ret_ = to_DWORD (count (info q))).

(** The two phases of an enumerator of names: one size query [Q]; when it
    succeeds, one buffer, not live before, of [longest + 1] elements (the
    sum taken in a [DWORD]); then the calls [mk buf cap i] for
    [i = 0, 1, ...], at most [count] of them and exactly [count] when the
    run returns; every call is given the full capacity of the buffer, so an
    answer that keeps to the contract yields a name shorter than it. *)
Definition two_phase_names {Σ} (Q : call) (count longest : key_info -> DWORD)
    (mk : ptr -> DWORD -> DWORD -> call) (w : world Σ)
    (run : result (list wstring) * world Σ) : Prop :=
  exists q sweep,
    calls run.2 = calls w ++ (Q, q) :: sweep
    /\ if status q =? ERROR_SUCCESS then
         let cap := to_DWORD (to_DWORD (longest (info q)) + 1) in
         exists buf,
           heap w !! buf = None
           /\ allocations run.2 = allocations w ++ [(buf, cap)]
           /\ (api_contract (Q, q) = true -> cap = longest (info q) + 1)
           /\ sweep.*1 = mk buf cap <$> seqZ 0 (size sweep)
           /\ size sweep <= to_DWORD (count (info q))
           /\ (forall ret_, run.1 = Ok ret_ ->
                 size sweep = to_DWORD (count (info q)))
           /\ Forall (fun ev => succeeded ev -> api_contract ev = true ->
                                size (item_name ev.2) + 1 <= cap) sweep
       else sweep = [] /\ allocations run.2 = allocations w.

(** The two phases of [enum_values]: the same with two sweep buffers, of
    [longest name + 1] code units and of [longest value] bytes; the blocks
    allocated after them are the ones the returned values own. *)
Definition two_phase_values {Σ} (hKey : HKEY) (w : world Σ)
    (run : result (list (wstring * Value)) * world Σ) : Prop :=
  exists q sweep,
    calls run.2 = calls w ++ (RegQueryInfoKeyW hKey request_values, q) :: sweep
    /\ if status q =? ERROR_SUCCESS then
         let capN := to_DWORD (to_DWORD (cbMaxValueNameLen (info q)) + 1) in
         let capV := to_DWORD (cbMaxValueLen (info q)) in
         exists nameBuf valBuf owned,
           heap w !! nameBuf = None /\ heap w !! valBuf = None
           /\ nameBuf <> valBuf
           /\ allocations run.2
              = allocations w ++ (nameBuf, capN) :: (valBuf, capV) :: owned
           /\ (api_contract (RegQueryInfoKeyW hKey request_values, q) = true ->
               capN = cbMaxValueNameLen (info q) + 1
               /\ capV = cbMaxValueLen (info q))
           /\ sweep.*1
              = (fun i => RegEnumValueW hKey i nameBuf capN true
                                        (Some valBuf) (Some capV))
                <$> seqZ 0 (size sweep)
           /\ size sweep <= to_DWORD (cValues (info q))
           /\ (forall ret_, run.1 = Ok ret_ ->
                 size sweep = to_DWORD (cValues (info q)))
           /\ Forall (fun ev => succeeded ev -> api_contract ev = true ->
                                size (item_name ev.2) + 1 <= capN
                                /\ size (item_data ev.2) <= capV) sweep
       else sweep = [] /\ allocations run.2 = allocations w.

(** How a returned [Value] relates to the answer [ev] of the sweep call of
    its index, in the heap [h] the run leaves: its [length] is the byte
    length the call stored; its block is live; when the answer kept to the
    contract, the block holds exactly the bytes of the item, and the type
    and the name are the item's. *)
Definition value_as_reported (h : gmap ptr (list Z)) (nv : wstring * Value)
    (ev : event) : Prop :=
  length_ nv.2 = to_DWORD (size (item_data ev.2))
  /\ is_Some (h !! data nv.2)
  /\ (api_contract ev = true ->
      length_ nv.2 = size (item_data ev.2)
      /\ h !! data nv.2 = Some (item_data ev.2)
      /\ type nv.2 = item_type ev.2
      /\ nv.1 = item_name ev.2).

(** ** The statements about the setters *)

(** The byte count a [RegSetValueExW] call passes. *)
Definition written_size (c : call) : DWORD :=
  match c with
  | RegSetValueExW _ _ _ _ _ cbData => cbData
  | _ => 0
  end.

(** The run issued the one call [c] and nothing else, and it fails exactly
    when that call does. *)
Definition writes_once {Σ} (answer : call -> Σ -> response * Σ) (c : call)
    (w : world Σ) (run : result unit * world Σ) : Prop :=
  run = (if status (reply_to answer c w) =? ERROR_SUCCESS
         then Ok tt else Err (status (reply_to answer c w)),
         called answer c w).

(** ** Every fallible operation of the class *)

Inductive operation :=
| op_Key (hKeyParent : HKEY) (subKey : wstring)
| op_Key_access (hKeyParent : HKEY) (subKey : wstring) (desiredAccess : REGSAM)
| op_create (this : Key) (hKeyParent : HKEY) (subKey : wstring)
    (desiredAccess : REGSAM)
| op_create_ex (this : Key) (hKeyParent : HKEY) (subKey : wstring)
    (desiredAccess : REGSAM) (options : DWORD)
    (securityAttributes : option Z) (disposition : bool)
| op_open (this : Key) (hKeyParent : HKEY) (subKey : wstring)
    (desiredAccess : REGSAM)
| op_set_dword_value (this : Key) (valueName : wstring) (val : DWORD)
| op_set_qword_value (this : Key) (valueName : wstring) (val : ULONGLONG)
| op_set_string_value (this : Key) (valueName : wstring) (val : wstring)
| op_set_multistring_value (this : Key) (valueName : wstring)
    (val : list wstring)
| op_set_expanded_string_value (this : Key) (valueName : wstring)
    (val : wstring)
| op_set_binary_value_raw (this : Key) (valueName : wstring)
    (val : list BYTE) (size_ : DWORD)
| op_set_binary_value (this : Key) (valueName : wstring) (val : list BYTE)
| op_enum_subkeys (this : Key)
| op_enum_values (this : Key)
| op_enum_value_names (this : Key)
| op_delete_value (this : Key) (valueName : wstring)
| op_delete_key (this : Key) (subKey : wstring) (desiredAccess : REGSAM)
| op_delete_tree (this : Key) (subKey : wstring).

(** A run with its value forgotten: what is left is whether it returned or
    threw, and the world. *)
Definition outcome {Σ A} (run : result A * world Σ) : result unit * world Σ :=
  (match run.1 with Ok _ => Ok tt | Err e => Err e end, run.2).

Definition perform {Σ} (answer : call -> Σ -> response * Σ) (op : operation)
    (w : world Σ) : result unit * world Σ :=
  match op with
  | op_Key p s => outcome (Key_new answer p s w)
  | op_Key_access p s a => outcome (Key_new_access answer p s a w)
  | op_create this p s a => outcome (Key_create answer this p s a w)
  | op_create_ex this p s a o sa d =>
      outcome (Key_create_ex answer this p s a o sa d w)
  | op_open this p s a => outcome (Key_open answer this p s a w)
  | op_set_dword_value this n v => Key_set_dword_value answer this n v w
  | op_set_qword_value this n v => Key_set_qword_value answer this n v w
  | op_set_string_value this n v => Key_set_string_value answer this n v w
  | op_set_multistring_value this n v =>
      Key_set_multistring_value answer this n v w
  | op_set_expanded_string_value this n v =>
      Key_set_expanded_string_value answer this n v w
  | op_set_binary_value_raw this n v sz =>
      Key_set_binary_value_raw answer this n v sz w
  | op_set_binary_value this n v => Key_set_binary_value answer this n v w
  | op_enum_subkeys this => outcome (Key_enum_subkeys answer this w)
  | op_enum_values this => outcome (Key_enum_values answer this w)
  | op_enum_value_names this => outcome (Key_enum_value_names answer this w)
  | op_delete_value this n => Key_delete_value answer this n w
  | op_delete_key this s a => Key_delete_key answer this s a w
  | op_delete_tree this s => Key_delete_tree answer this s w
  end.

(** ** Vocabulary of the further results *)

(** A string without an embedded NUL. *)
Definition no_NUL (s : wstring) : bool := forallb (fun c => negb (c =? NUL)) s.

(** An octet, and a 16-bit code unit. *)
Definition is_BYTE (b : Z) : bool := (0 <=? b) && (b <? 2 ^ 8).

Definition is_wchar_t (u : Z) : bool := (0 <=? u) && (u <? 2 ^ 16).

(** The unsigned integer that a reader of little-endian bytes sees. *)
Definition le_value (bytes : list BYTE) : Z :=
  foldr (fun b acc => b + 256 * acc) 0 bytes.

(** The code units that a reader of the bytes sees, two bytes each. *)
Fixpoint wchar_units (bytes : list BYTE) : list wchar_t :=
  match bytes with
  | lo :: hi :: rest => le_value [lo; hi] :: wchar_units rest
  | _ => []
  end.

(** The calls by which the key [hKey] is read. *)
Definition reads (hKey : HKEY) (c : call) : bool :=
  match c with
  | RegQueryInfoKeyW h _ | RegEnumKeyExW h _ _ _
  | RegEnumValueW h _ _ _ _ _ _ => h =? hKey
  | _ => false
  end.

(** In the state [σ], reading the key [hKey] does not change the
    registry. *)
Definition unchanged_by_reads {Σ} (answer : call -> Σ -> response * Σ)
    (hKey : HKEY) (σ : Σ) : Prop :=
  forall c, reads hKey c = true -> (answer c σ).2 = σ.

(** A run from [w] to [w'] has done nothing to the registry but read the
    key [hKey]; when reading does not change the registry, the run has not
    either, and every answer it got is the one of the state it started
    in. *)
Definition only_read {Σ} (answer : call -> Σ -> response * Σ) (hKey : HKEY)
    (w w' : world Σ) : Prop :=
  exists new,
    calls w' = calls w ++ new
    /\ Forall (fun ev => reads hKey ev.1 = true) new
    /\ (unchanged_by_reads answer hKey (registry w) ->
        registry w' = registry w
        /\ Forall (fun ev => ev.2 = (answer ev.1 (registry w)).1) new).

(** In the state [σ], which reading leaves alone, the key [hKey] lists the
    names [names]: the size query [Q] succeeds within the contract and
    reports their number and a length that none exceeds; the call
    [mk buf cap i], given a capacity [cap] of that length and one more,
    hands back the [i]-th name. *)
Definition lists_names {Σ} (answer : call -> Σ -> response * Σ) (hKey : HKEY)
    (Q : call) (count longest : key_info -> DWORD)
    (mk : ptr -> DWORD -> DWORD -> call) (σ : Σ) (names : list wstring)
  : Prop :=
  unchanged_by_reads answer hKey σ
  /\ let q := (answer Q σ).1 in
     status q = ERROR_SUCCESS
     /\ api_contract (Q, q) = true
     /\ count (info q) = size names
     /\ Forall (fun name => size name <= longest (info q)) names
     /\ forall (i : nat) name buf,
          names !! i = Some name ->
          let r := (answer (mk buf (longest (info q) + 1) (Z.of_nat i)) σ).1 in
          status r = ERROR_SUCCESS /\ item_name r = name.

Definition holds_subkeys {Σ} (answer : call -> Σ -> response * Σ)
    (hKey : HKEY) (σ : Σ) (names : list wstring) : Prop :=
  lists_names answer hKey (RegQueryInfoKeyW hKey request_subkeys)
    cSubKeys cbMaxSubKeyLen (fun buf cap i => RegEnumKeyExW hKey i buf cap)
    σ names.

Definition holds_value_names {Σ} (answer : call -> Σ -> response * Σ)
    (hKey : HKEY) (σ : Σ) (names : list wstring) : Prop :=
  lists_names answer hKey (RegQueryInfoKeyW hKey request_value_names)
    cValues cbMaxValueNameLen
    (fun buf cap i => RegEnumValueW hKey i buf cap false None None)
    σ names.

(** The same for the values of the key, each a name, a type and bytes. *)
Definition holds_values {Σ} (answer : call -> Σ -> response * Σ)
    (hKey : HKEY) (σ : Σ) (items : list (wstring * (DWORD * list BYTE)))
  : Prop :=
  unchanged_by_reads answer hKey σ
  /\ let Q := RegQueryInfoKeyW hKey request_values in
     let q := (answer Q σ).1 in
     status q = ERROR_SUCCESS
     /\ api_contract (Q, q) = true
     /\ cValues (info q) = size items
     /\ Forall (fun it => size it.1 <= cbMaxValueNameLen (info q)
                          /\ size it.2.2 <= cbMaxValueLen (info q)
                          /\ is_DWORD it.2.1 = true) items
     /\ forall (i : nat) it nameBuf valBuf,
          items !! i = Some it ->
          let r := (answer (RegEnumValueW hKey (Z.of_nat i) nameBuf
                              (cbMaxValueNameLen (info q) + 1) true
                              (Some valBuf) (Some (cbMaxValueLen (info q))))
                           σ).1 in
          status r = ERROR_SUCCESS /\ item_name r = it.1
          /\ item_type r = it.2.1 /\ item_data r = it.2.2.

(** A returned entry is the stored value [it]: its name, its type, its
    byte length, and a live block of the heap [h] with its bytes. *)
Definition value_is (h : gmap ptr (list Z)) (nv : wstring * Value)
    (it : wstring * (DWORD * list BYTE)) : Prop :=
  nv.1 = it.1 /\ type nv.2 = it.2.1 /\ length_ nv.2 = size it.2.2
  /\ h !! data nv.2 = Some it.2.2.

(** A key whose names get shorter down the list, so that every sweep call
    but the first writes over a longer name. *)
Definition sample_descending : sim.state :=
  {| sim.subkeys := [[67; 67; 67]; [66; 66]; [65]];
     sim.values := [([110; 110; 110], (REG_BINARY, [1; 2; 3]));
                    ([115; 115], (REG_SZ, [104; 0; 0; 0]));
                    ([98], (REG_NONE, []))] |}.

(** * seagull::oleutils -- [include/seagull/oleutils.h] *)

Module oleutils.

Abbreviation HRESULT := Z (only parsing).

(** [GUID] of [guiddef.h]; [REFIID] is a reference to one. *)
Record GUID := {
  Data1 : DWORD;
  Data2 : Z;
  Data3 : Z;
  Data4 : list BYTE
}.

(** The macro [FAILED(hr)] of [winerror.h]: an [HRESULT] is a signed
    32-bit integer and the negative ones are failures. *)
Definition FAILED (hr : HRESULT) : bool := hr <? 0.

(** A [std::wstring] built from a pointer to [wchar_t]: the code units
    before the first NUL.
    Reading a block that holds no NUL runs past its end, which is
    undefined behaviour in C++; the function stops at the end of the
    block. *)
Fixpoint c_string (block : list wchar_t) : wstring :=
  match block with
  | [] => []
  | c :: rest => if c =? NUL then [] else c :: c_string rest
  end.

(** The answers of [StringFromCLSID], an [HRESULT] and the contents of the
    block behind the out-pointer, if any, on which [clsid_to_wstring] has
    defined behaviour: a failure, whatever the out-pointer, since the
    string is not read then; or a success with a block that holds a
    NUL. *)
Definition well_defined (a : HRESULT * option (list wchar_t)) : bool :=
  FAILED a.1
  || match a.2 with
     | Some block => existsb (fun c => c =? NUL) block
     | None => false
     end.

(** The blocks of the COM task allocator. *)
Abbreviation task_memory := (gmap positive (list Z)) (only parsing).

Section Programs.

(** [::StringFromCLSID] is any way of answering with an [HRESULT] and,
    unless it leaves the out-pointer null, the contents of the block it
    allocated for the string. *)
Context (answer : GUID -> HRESULT * option (list wchar_t)).

(** [::StringFromCLSID(riid, &p)]: the block is new, at an address that no
    live block has. *)
Definition StringFromCLSID (riid : GUID) (m : task_memory)
  : HRESULT * option ptr * task_memory :=
  match answer riid with
  | (hr, Some block) =>
      let p := fresh (dom m) in (hr, Some p, <[p := block]> m)
  | (hr, None) => (hr, None, m)
  end.

(** The destructor of [wil::unique_cotaskmem]: [CoTaskMemFree], unless the
    pointer is null. *)
Definition unique_cotaskmem_destroy (p : option ptr) (m : task_memory)
  : task_memory :=
  match p with
  | Some a => delete a m
  | None => m
  end.

(** [clsid_to_wstring]: [pOleStr] starts out null and receives the
    out-pointer; [THROW_IF_FAILED] throws a failed [HRESULT]; the returned
    string is built before [pOleStr] is destroyed, and [pOleStr] is
    destroyed on both paths.  Reading through a null pointer is undefined
    behaviour; the function reads nothing then. *)
Definition clsid_to_wstring (riid : GUID) (m : task_memory)
  : result wstring * task_memory :=
  let '(hr, pOleStr, m) := StringFromCLSID riid m in
  if FAILED hr then (Err hr, unique_cotaskmem_destroy pOleStr m)
  else
    let s := c_string (default [] (pOleStr ≫= fun a => m !! a)) in
    (Ok s, unique_cotaskmem_destroy pOleStr m).

End Programs.

End oleutils.

(** * Results about the encoder *)

Lemma build_loop_concat (strings : list wstring) (acc : list wchar_t) :
  fold_left (fun ret s => vector.push_back (vector.insert_end ret s) NUL)
            strings acc
  = acc ++ concat (map (fun s => s ++ [NUL]) strings).
Proof.
  revert acc.
  induction strings as [|s rest IH]; intros acc; simpl.
  - by rewrite app_nil_r.
  - rewrite IH. unfold vector.push_back, vector.insert_end.
    by rewrite <- !app_assoc.
Qed.

Lemma multistring_wire_has_length (strings : list wstring) :
  length (multistring_wire strings) = multistring_wire_length strings.
Proof.
  unfold multistring_wire, multistring_wire_length.
  rewrite length_app. simpl. f_equal.
  induction strings as [|s rest IH]; simpl; [done|].
  rewrite !length_app, IH. simpl. lia.
Qed.

Lemma multistring_wire_double_nul (strings : list wstring) :
  strings <> [] ->
  exists front, multistring_wire strings = front ++ [NUL; NUL].
Proof.
  intros Hne.
  destruct (exists_last Hne) as (init & lst & ->).
  exists (concat (map (fun s => s ++ [NUL]) init) ++ lst).
  unfold multistring_wire.
  rewrite map_app, concat_app. simpl.
  rewrite app_nil_r. by rewrite <- !app_assoc.
Qed.

(** C1.  On the empty list the encoder returns the empty buffer: the
    (count, value) constructor is asked for zero copies of the character 2,
    so the buffer holds no NUL at all, let alone two. *)
Theorem build_multistring_empty_list :
  internals.build_multistring [] = []
  /\ length (internals.build_multistring []) = 0%nat
  /\ internals.build_multistring [] <> [NUL; NUL].
Proof. by vm_compute. Qed.

(** C2.  On a non-empty list the encoder returns each string followed by one
    NUL, in list order, and one final NUL; that buffer ends in two NULs and
    its length is the sum of (length + 1) over the strings, plus 1. *)
Theorem build_multistring_nonempty (strings : list wstring) :
  strings <> [] ->
  internals.build_multistring strings = multistring_wire strings
  /\ (exists front, internals.build_multistring strings = front ++ [NUL; NUL])
  /\ length (internals.build_multistring strings)
     = multistring_wire_length strings.
Proof.
  intros Hne.
  assert (Heq : internals.build_multistring strings = multistring_wire strings).
  { destruct strings as [|s rest]; [done|].
    unfold internals.build_multistring, vector.reserve.
    by rewrite build_loop_concat. }
  rewrite Heq. split; [done|]. split.
  - by apply multistring_wire_double_nul.
  - apply multistring_wire_has_length.
Qed.

Lemma build_multistring_nonempty_witness :
  [[97]; [98; 98]; []] <> ([] : list wstring)
  /\ internals.build_multistring [[97]; [98; 98]; []]
     = [97; 0; 98; 98; 0; 0; 0].
Proof.
  split; [done|].
  destruct (build_multistring_nonempty [[97]; [98; 98]; []]) as [-> _]; done.
Defined.

(** * Results about the [Key] methods *)

Section Results.
Context {Σ : Type} (answer : call -> Σ -> response * Σ).

Lemma THROW_IF_WIN32_ERROR_run (c : call) (w : world Σ) :
  THROW_IF_WIN32_ERROR answer c w
  = ((if status (reply_to answer c w) =? ERROR_SUCCESS
      then Ok (reply_to answer c w)
      else Err (status (reply_to answer c w))),
     called answer c w).
Proof.
  unfold THROW_IF_WIN32_ERROR, bind, os_call, called, reply_to.
  destruct (answer c (registry w)) as [r σ]; simpl.
  unfold ret, throw. by destruct (status r =? ERROR_SUCCESS).
Qed.

Lemma fmap_seqZ_one {A} (f : Z -> A) (i : Z) :
  f <$> seqZ i (Z.of_nat 1) = [f i].
Proof. change (Z.of_nat 1) with 1. rewrite seqZ_cons by lia. by rewrite seqZ_nil by lia. Qed.

Lemma to_DWORD_small (z : Z) : 0 <= z < 2 ^ 32 -> to_DWORD z = z.
Proof. intros H. unfold to_DWORD. by apply Z.mod_small. Qed.

Lemma buf_store_length (content old : list Z) :
  length (buf_store content old) = length old.
Proof.
  unfold buf_store. rewrite length_take, length_app, length_drop. lia.
Qed.

Lemma buf_store_take (content old : list Z) :
  (length content <= length old)%nat ->
  take (length content) (buf_store content old) = content.
Proof.
  intros Hle. unfold buf_store.
  rewrite take_take, Nat.min_l by done.
  by rewrite take_app_length.
Qed.

Lemma buf_store_take_name (name old : list Z) :
  (length name < length old)%nat ->
  take (length name) (buf_store (name ++ [NUL]) old) = name.
Proof.
  intros Hlt. unfold buf_store.
  rewrite take_take, Nat.min_l by lia.
  rewrite <- app_assoc. by rewrite take_app_length.
Qed.

Lemma for_loop_S {A} (n : nat) (i : DWORD) (body : DWORD -> A -> M Σ A)
    (acc : A) (w : world Σ) :
  for_loop (S n) i body acc w
  = match body i acc w with
    | (Ok acc', w') => for_loop n (to_DWORD (i + 1)) body acc' w'
    | (Err e, w') => (Ok (acc, Some e), w')
    end.
Proof.
  simpl. unfold bind, attempt.
  destruct (body i acc w) as [[acc'|e] w']; reflexivity.
Qed.

Lemma sweep_names_body_run (mk : DWORD -> call) (buf : ptr) (i : DWORD)
    (acc : list wstring) (w : world Σ) :
  sweep_names_body answer mk buf i acc w
  = (if status (reply_to answer (mk i) w) =? ERROR_SUCCESS
     then Ok (acc ++ [take (Z.to_nat (to_DWORD
                               (size (item_name (reply_to answer (mk i) w)))))
                           (default [] (heap (called answer (mk i) w) !! buf))])
     else Err (status (reply_to answer (mk i) w)),
     called answer (mk i) w).
Proof.
  unfold sweep_names_body, bind. rewrite THROW_IF_WIN32_ERROR_run.
  by destruct (status (reply_to answer (mk i) w) =? ERROR_SUCCESS).
Qed.

Lemma Forall2_with_right {A B} (P : A -> B -> Prop) (R : B -> Prop)
    (l : list A) (k : list B) :
  Forall2 P l k -> Forall R k -> Forall2 (fun x y => P x y /\ R y) l k.
Proof.
  induction 1 as [|x y l k HP _ IH]; intros HR; [constructor|].
  apply Forall_cons in HR as [HRx HR]. constructor; [done|]. by apply IH.
Qed.

Lemma fst_fmap_image {A B C} (f : C -> A) (l : list (A * B)) (k : list C) :
  l.*1 = f <$> k -> Forall (fun ev => exists i, ev.1 = f i) l.
Proof.
  revert k. induction l as [|[a b] l IH]; intros k Heq; [constructor|].
  destruct k as [|c k]; [done|]. rewrite !fmap_cons in Heq.
  injection Heq as Ha Hl. constructor; [by exists c|]. by eapply IH.
Qed.

Lemma succeeded_image {C} (f : C -> call) (l : list (call * response))
    (k : list C) :
  Forall succeeded l -> l.*1 = f <$> k ->
  Forall (fun ev => succeeded ev /\ exists i, ev.1 = f i) l.
Proof.
  intros Hs Himg. apply Forall_and. split; [done|].
  by eapply fst_fmap_image.
Qed.

Lemma sweep_first_failure {A} (Q : call) (q : response)
    (new done : list (call * response)) (exn : option Z) (x : A) :
  status q = ERROR_SUCCESS -> sweep_calls new exn done ->
  first_failure_surfaces
    (match exn with None => Ok x | Some e => Err e end) ((Q, q) :: new).
Proof.
  intros Hq [Hdone Hex]. destruct exn as [e|]; cbn.
  - destruct Hex as (last & -> & He & Hne).
    exists ((Q, q) :: done), last. split; [done|].
    split; [by constructor|done].
  - subst new. by constructor.
Qed.

Lemma sweep_failure_status (new done : list (call * response))
    (exn : option Z) (ev : call * response) :
  sweep_calls new exn done -> ev ∈ new -> ~ succeeded ev ->
  exn = Some (status ev.2).
Proof.
  intros [Hdone Hex] Hin Hfail. rewrite Forall_forall in Hdone.
  destruct exn as [e|].
  - destruct Hex as (last & -> & He & Hne).
    apply elem_of_app in Hin as [Hin|Hin].
    + by apply Hdone in Hin.
    + apply list_elem_of_singleton in Hin as ->. by rewrite He.
  - subst new. by apply Hdone in Hin.
Qed.

Section NameSweep.
Variables (mk : DWORD -> call) (buf : ptr).
Hypothesis mk_writes : forall i r h,
  status r = ERROR_SUCCESS ->
  out_writes (mk i) r h = alter (buf_store (item_name r ++ [NUL])) buf h.
Hypothesis mk_keeps : forall i r h,
  status r <> ERROR_SUCCESS -> out_writes (mk i) r h = h.

Lemma called_heap_name (i : DWORD) (w : world Σ) (content : list Z) :
  heap w !! buf = Some content ->
  status (reply_to answer (mk i) w) = ERROR_SUCCESS ->
  heap (called answer (mk i) w)
  = <[buf := buf_store (item_name (reply_to answer (mk i) w) ++ [NUL])
                       content]> (heap w).
Proof.
  intros Hbuf Hst. unfold called; simpl. rewrite mk_writes by done.
  apply map_eq; intros p. destruct (decide (p = buf)) as [->|Hne].
  - by rewrite lookup_alter_eq, lookup_insert_eq, Hbuf.
  - by rewrite lookup_alter_ne, lookup_insert_ne.
Qed.

Lemma sweep_names_spec (n : nat) :
  forall (i : DWORD) (acc : list wstring) (w : world Σ) (content : list Z),
    heap w !! buf = Some content ->
    Z.of_nat (length content) < 2 ^ 32 ->
    0 <= i -> i + Z.of_nat n < 2 ^ 32 ->
    exists new done news exn w' content',
      for_loop n i (sweep_names_body answer mk buf) acc w
      = (Ok (acc ++ news, exn), w')
      /\ calls w' = calls w ++ new
      /\ allocations w' = allocations w
      /\ heap w' = <[buf := content']> (heap w)
      /\ length content' = length content
      /\ sweep_calls new exn done
      /\ new.*1 = mk <$> seqZ i (Z.of_nat (length new))
      /\ (exn = None -> length new = n)
      /\ (length new <= n)%nat
      /\ Forall2 (fun s ev =>
                    size (item_name ev.2) < Z.of_nat (length content) ->
                    s = item_name ev.2) news done.
Proof.
  induction n as [|n IH]; intros i acc w content Hbuf Hcap Hi Hin.
  - exists [], [], [], None, w, content. simpl.
    rewrite !app_nil_r. unfold ret.
    split; [done|]. split; [done|]. split; [done|].
    split; [by rewrite insert_id|]. split; [done|].
    split; [by split|]. split; [done|]. split; [done|]. split; [done|].
    constructor.
  - rewrite for_loop_S, sweep_names_body_run.
    set (r := reply_to answer (mk i) w) in *.
    set (w1 := called answer (mk i) w) in *.
    destruct (status r =? ERROR_SUCCESS) eqn:Hst.
    + apply Z.eqb_eq in Hst.
      pose proof (called_heap_name i w content Hbuf Hst) as Hh1.
      fold r w1 in Hh1.
      set (name := take (Z.to_nat (to_DWORD (size (item_name r))))
                        (default [] (heap w1 !! buf))).
      destruct (IH (to_DWORD (i + 1)) (acc ++ [name]) w1
                   (buf_store (item_name r ++ [NUL]) content))
        as (new & done & news & exn & w' & content' & Hrun & Hcalls & Hal
            & Hheap & Hlen & Hsw & Hnew & Hnone & Hdone & Hread).
      { rewrite Hh1. apply lookup_insert_eq. }
      { by rewrite buf_store_length. }
      { unfold to_DWORD. apply Z.mod_pos_bound. lia. }
      { rewrite to_DWORD_small by lia. lia. }
      rewrite to_DWORD_small in Hnew by lia.
      rewrite buf_store_length in Hlen, Hread.
      exists ((mk i, r) :: new), ((mk i, r) :: done), (name :: news),
        exn, w', content'.
      rewrite Hrun, <- app_assoc.
      split; [done|]. split.
      { rewrite Hcalls. unfold w1, called; simpl. by rewrite <- app_assoc. }
      split; [by rewrite Hal|]. split.
      { rewrite Hheap, Hh1. by rewrite insert_insert_eq. }
      split; [done|]. split.
      { destruct Hsw as [Hdn Hex]. split; [by constructor|].
        destruct exn as [e|]; [|by rewrite Hex].
        destruct Hex as (last & -> & He & Hne). by exists last. }
      split.
      { rewrite fmap_cons, Hnew, length_cons, Nat2Z.inj_succ.
        rewrite (seqZ_cons i) by lia. rewrite fmap_cons.
        do 3 f_equal; lia. }
      split; [intros ->; by rewrite length_cons, Hnone|].
      split; [rewrite length_cons; lia|].
      constructor; [|done].
      simpl. intros Hfit. unfold name. rewrite Hh1, lookup_insert_eq. simpl.
      unfold size in *.
      rewrite to_DWORD_small by lia.
      rewrite Nat2Z.id. apply buf_store_take_name. apply Nat2Z.inj_lt. exact Hfit.
    + apply Z.eqb_neq in Hst.
      exists [(mk i, r)], [], [], (Some (status r)), w1, content.
      rewrite app_nil_r. unfold w1, called; cbn [heap calls allocations].
      fold r.
      split; [done|]. split; [done|]. split; [done|]. split.
      { rewrite mk_keeps by done. by rewrite insert_id. }
      split; [done|]. split.
      { split; [constructor|]. by exists (mk i, r). }
      split. { cbn [length]. by rewrite fmap_seqZ_one. }
      split; [done|]. split; [cbn; lia|]. constructor.
Qed.
End NameSweep.

Section ValueSweep.
Variables (hKey : HKEY) (capN capV : DWORD) (nameBuf valBuf : ptr).
Hypothesis bufs_differ : nameBuf <> valBuf.

Local Abbreviation mk := (enum_value_call hKey capN capV nameBuf valBuf).

Lemma replicate_store (bytes : list Z) :
  buf_store bytes (replicate (length bytes) 0) = bytes.
Proof.
  unfold buf_store. rewrite length_replicate.
  by rewrite take_app_length.
Qed.

Lemma enum_values_body_run (i : DWORD) (acc : list (wstring * Value))
    (w : world Σ) (cn cv : list Z) :
  heap w !! nameBuf = Some cn ->
  heap w !! valBuf = Some cv ->
  let r := reply_to answer (mk i) w in
  let n := to_DWORD (size (item_data r)) in
  let p := fresh (dom (heap w)) in
  let cn' := buf_store (item_name r ++ [NUL]) cn in
  let cv' := buf_store (item_data r) cv in
  let blk := buf_store (take (Z.to_nat n) cv') (replicate (Z.to_nat n) 0) in
  enum_values_body answer hKey capN capV nameBuf valBuf i acc w
  = if status r =? ERROR_SUCCESS then
      (Ok (acc ++ [(take (Z.to_nat (to_DWORD (size (item_name r)))) cn',
                    {| type := to_DWORD (item_type r); data := p;
                       length_ := n |})]),
       {| registry := (answer (mk i) (registry w)).2;
          heap := <[p := blk]> (<[valBuf := cv']> (<[nameBuf := cn']> (heap w)));
          calls := calls w ++ [(mk i, r)];
          allocations := allocations w ++ [(p, n)] |})
    else
      (Err (status r),
       {| registry := (answer (mk i) (registry w)).2;
          heap := heap w;
          calls := calls w ++ [(mk i, r)];
          allocations := allocations w |}).
Proof.
  intros Hn Hv r n p cn' cv' blk.
  unfold enum_values_body, bind. fold (mk i).
  rewrite THROW_IF_WIN32_ERROR_run. fold r.
  destruct (status r =? ERROR_SUCCESS) eqn:Hst.
  2:{ unfold called, out_writes. fold r. by rewrite Hst. }
  assert (Hh1 : heap (called answer (mk i) w)
                = <[valBuf := cv']> (<[nameBuf := cn']> (heap w))).
  { unfold called; simpl. fold r. unfold out_writes. rewrite Hst. simpl.
    apply map_eq; intros q.
    destruct (decide (q = valBuf)) as [->|Hq].
    - rewrite lookup_alter_eq, lookup_alter_ne, lookup_insert_eq, Hv by done.
      done.
    - rewrite lookup_alter_ne, (lookup_insert_ne _ valBuf) by done.
      destruct (decide (q = nameBuf)) as [->|Hq'].
      + by rewrite lookup_alter_eq, lookup_insert_eq, Hn.
      + by rewrite lookup_alter_ne, lookup_insert_ne. }
  assert (Hdom : dom (heap (called answer (mk i) w)) = dom (heap w)).
  { rewrite Hh1, !dom_insert_L.
    rewrite (subseteq_union_1_L {[nameBuf]})
      by (apply singleton_subseteq_l; by eapply elem_of_dom_2).
    apply subseteq_union_1_L, singleton_subseteq_l.
    by eapply elem_of_dom_2. }
  unfold make_unique, memcpy, wstring_of, ret.
  cbn [heap calls registry allocations].
  rewrite Hdom, Hh1. fold p n.
  unfold called; cbn [registry calls allocations]. fold r.
  assert (Hp : heap w !! p = None).
  { apply not_elem_of_dom. apply is_fresh. }
  assert (Hpn : p <> nameBuf) by (intros E; rewrite E in Hp; congruence).
  assert (Hpv : p <> valBuf) by (intros E; rewrite E in Hp; congruence).
  rewrite (lookup_insert_ne _ p valBuf), lookup_insert_eq by done.
  rewrite lookup_alter_ne, (lookup_insert_ne _ p nameBuf) by done.
  rewrite (lookup_insert_ne _ valBuf nameBuf), lookup_insert_eq by done.
  cbn [default]. fold cv' blk.
  unfold vector.push_back. do 2 f_equal.
  f_equal. apply map_eq; intros q. destruct (decide (q = p)) as [->|Hq].
  + by rewrite lookup_alter_eq, !lookup_insert_eq.
  + by rewrite lookup_alter_ne, !(lookup_insert_ne _ p) by done.
Qed.


Lemma sweep_values_spec (n : nat) :
  forall (i : DWORD) (acc : list (wstring * Value)) (w : world Σ)
         (cn cv : list Z),
    heap w !! nameBuf = Some cn ->
    heap w !! valBuf = Some cv ->
    Z.of_nat (length cn) = capN -> Z.of_nat (length cv) = capV ->
    capN < 2 ^ 32 -> capV < 2 ^ 32 ->
    0 <= i -> i + Z.of_nat n < 2 ^ 32 ->
    exists new done news exn w' cn' cv',
      for_loop n i
        (enum_values_body answer hKey capN capV nameBuf valBuf) acc w
      = (Ok (acc ++ news, exn), w')
      /\ calls w' = calls w ++ new
      /\ allocations w'
         = allocations w ++ ((fun nv => (data nv.2, length_ nv.2)) <$> news)
      /\ sweep_calls new exn done
      /\ new.*1 = mk <$> seqZ i (Z.of_nat (length new))
      /\ (exn = None -> length new = n)
      /\ (length new <= n)%nat
      /\ heap w' !! nameBuf = Some cn' /\ length cn' = length cn
      /\ heap w' !! valBuf = Some cv' /\ length cv' = length cv
      /\ (forall q, q <> nameBuf -> q <> valBuf ->
                    q ∉ (fun nv => data nv.2) <$> news ->
                    heap w' !! q = heap w !! q)
      /\ Forall (fun nv => heap w !! data nv.2 = None) news
      /\ NoDup ((fun nv => data nv.2) <$> news)
      /\ Forall2 (value_read capN capV (heap w')) news done.
Proof.
  induction n as [|n IH]; intros i acc w cn cv Hn Hv Hcn Hcv HcapN HcapV Hi Hin.
  - exists [], [], [], None, w, cn, cv. simpl. unfold ret.
    rewrite !app_nil_r.
    split; [done|]. split; [done|]. split; [done|].
    split; [by split|]. split; [done|]. split; [done|]. split; [done|].
    split; [done|]. split; [done|]. split; [done|]. split; [done|].
    split; [done|]. split; [constructor|]. split; constructor.
  - rewrite for_loop_S, (enum_values_body_run i acc w cn cv Hn Hv).
    fold (mk i).
    set (r := reply_to answer (mk i) w) in *.
    set (m := to_DWORD (size (item_data r))) in *.
    set (p := fresh (dom (heap w))) in *.
    set (cn1 := buf_store (item_name r ++ [NUL]) cn) in *.
    set (cv1 := buf_store (item_data r) cv) in *.
    set (blk := buf_store (take (Z.to_nat m) cv1) (replicate (Z.to_nat m) 0)) in *.
    assert (Hp : heap w !! p = None).
    { apply not_elem_of_dom. apply is_fresh. }
    assert (Hpn : p <> nameBuf) by (intros E; rewrite E in Hp; congruence).
    assert (Hpv : p <> valBuf) by (intros E; rewrite E in Hp; congruence).
    destruct (status r =? ERROR_SUCCESS) eqn:Hst.
    + apply Z.eqb_eq in Hst.
      set (name := take (Z.to_nat (to_DWORD (size (item_name r)))) cn1).
      set (V := {| type := to_DWORD (item_type r); data := p; length_ := m |}).
      match goal with
      | |- context [for_loop n _ _ _ ?x] => set (w3 := x)
      end.
      destruct (IH (to_DWORD (i + 1)) (acc ++ [(name, V)]) w3 cn1 cv1)
        as (new & done & news & exn & w' & cn' & cv' & Hrun & Hcalls & Hal
            & Hsw & Hnew & Hnone & Hdone & Hn' & Hcn' & Hv' & Hcv'
            & Hframe & Hfresh & Hnd & Hread).
      { unfold w3; cbn [heap].
        by rewrite lookup_insert_ne, lookup_insert_ne, lookup_insert_eq. }
      { unfold w3; cbn [heap].
        by rewrite lookup_insert_ne, lookup_insert_eq. }
      { unfold cn1. by rewrite buf_store_length. }
      { unfold cv1. by rewrite buf_store_length. }
      { done. } { done. }
      { unfold to_DWORD. apply Z.mod_pos_bound. lia. }
      { rewrite to_DWORD_small by lia. lia. }
      rewrite to_DWORD_small in Hnew by lia.
      unfold cn1 in Hcn'. unfold cv1 in Hcv'.
      rewrite buf_store_length in Hcn', Hcv'.
      assert (Hw3p : heap w3 !! p = Some blk).
      { unfold w3; cbn [heap]. apply lookup_insert_eq. }
      assert (Hpnews : p ∉ (fun nv => data nv.2) <$> news).
      { intros Hin'. apply list_elem_of_fmap in Hin' as (nv & Hnv & Hel).
        rewrite Forall_forall in Hfresh. apply Hfresh in Hel.
        rewrite <- Hnv in Hel. congruence. }
      assert (Hw'p : heap w' !! p = Some blk).
      { rewrite Hframe by done. done. }
      exists ((mk i, r) :: new), ((mk i, r) :: done), ((name, V) :: news),
        exn, w', cn', cv'.
      rewrite Hrun, <- app_assoc.
      split; [done|]. split.
      { rewrite Hcalls. unfold w3; cbn [calls]. by rewrite <- app_assoc. }
      split.
      { rewrite Hal. unfold w3; cbn [allocations].
        by rewrite <- app_assoc. }
      split.
      { destruct Hsw as [Hdn Hex]. split; [by constructor|].
        destruct exn as [e|]; [|by rewrite Hex].
        destruct Hex as (last & -> & He & Hne). by exists last. }
      split.
      { rewrite fmap_cons, Hnew, length_cons, Nat2Z.inj_succ.
        rewrite (seqZ_cons i) by lia. rewrite fmap_cons.
        do 3 f_equal; lia. }
      split; [intros ->; by rewrite length_cons, Hnone|].
      split; [rewrite length_cons; lia|].
      split; [done|]. split; [done|]. split; [done|]. split; [done|].
      split.
      { intros q Hqn Hqv Hq. rewrite fmap_cons in Hq.
        apply not_elem_of_cons in Hq as [Hqp Hq].
        rewrite Hframe by done. unfold w3; cbn [heap].
        by rewrite !lookup_insert_ne. }
      split.
      { constructor; [done|].
        eapply Forall_impl; [exact Hfresh|].
        intros nv Hnv. cbn beta in Hnv. unfold w3 in Hnv; cbn [heap] in Hnv.
        apply lookup_insert_None in Hnv as [Hnv _].
        apply lookup_insert_None in Hnv as [Hnv _].
        by apply lookup_insert_None in Hnv as [Hnv _]. }
      split.
      { rewrite fmap_cons. by constructor. }
      constructor; [|done].
      unfold value_read, V; cbn [fst snd data length_ type].
      split; [done|]. split; [done|]. split; [by rewrite Hw'p|].
      split.
      * intros Hfit. unfold name, cn1.
        unfold size in *.
        rewrite to_DWORD_small by lia.
        rewrite Nat2Z.id. apply buf_store_take_name.
        apply Nat2Z.inj_lt. by rewrite Hcn.
      * intros Hfit. rewrite Hw'p. f_equal.
        unfold blk, m, cv1. unfold size in *.
        rewrite to_DWORD_small by lia. rewrite Nat2Z.id.
        rewrite buf_store_take.
        -- apply replicate_store.
        -- apply Nat2Z.inj_le. by rewrite Hcv.
    + apply Z.eqb_neq in Hst.
      exists [(mk i, r)], [], [], (Some (status r)).
      eexists. exists cn, cv.
      rewrite !app_nil_r. cbn [heap calls allocations].
      split; [done|]. split; [done|]. split; [done|].
      split.
      { split; [constructor|]. by exists (mk i, r). }
      split. { cbn [length]. by rewrite fmap_seqZ_one. }
      split; [done|]. split; [cbn; lia|].
      split; [done|]. split; [done|]. split; [done|]. split; [done|].
      split; [done|]. split; [constructor|]. split; constructor.
Qed.
End ValueSweep.

Lemma Key_enum_subkeys_shape (this : Key) :
  Key_enum_subkeys answer this
  = enum_names answer (RegQueryInfoKeyW (Key_get this) request_subkeys)
      cSubKeys cbMaxSubKeyLen
      (fun buf cap i => RegEnumKeyExW (Key_get this) i buf cap).
Proof. reflexivity. Qed.

Lemma Key_enum_value_names_shape (this : Key) :
  Key_enum_value_names answer this
  = enum_names answer (RegQueryInfoKeyW (Key_get this) request_value_names)
      cValues cbMaxValueNameLen
      (fun buf cap i => RegEnumValueW (Key_get this) i buf cap false None None).
Proof. reflexivity. Qed.

Lemma to_DWORD_range (z : Z) : 0 <= to_DWORD z < 2 ^ 32.
Proof. unfold to_DWORD. apply Z.mod_pos_bound. lia. Qed.

Section EnumNames.
Variables (Q : call) (count longest : key_info -> Z)
          (mk : positive -> Z -> Z -> call).
Hypothesis Q_writes_nothing : forall r h, out_writes Q r h = h.
Hypothesis mk_writes : forall buf cap i r h,
  status r = ERROR_SUCCESS ->
  out_writes (mk buf cap i) r h
  = alter (buf_store (item_name r ++ [NUL])) buf h.
Hypothesis mk_keeps : forall buf cap i r h,
  status r <> ERROR_SUCCESS -> out_writes (mk buf cap i) r h = h.

Lemma enum_names_spec (w : world Σ) :
  let q := reply_to answer Q w in
  let cap := to_DWORD (to_DWORD (longest (info q)) + 1) in
  let buf := fresh (dom (heap w)) in
  exists r w' new,
    enum_names answer Q count longest mk w = (r, w')
    /\ calls w' = calls w ++ (Q, q) :: new
    /\ heap w' = heap w
    /\ if status q =? ERROR_SUCCESS then
         exists done names exn,
           r = match exn with None => Ok names | Some e => Err e end
           /\ allocations w' = allocations w ++ [(buf, cap)]
           /\ sweep_calls new exn done
           /\ new.*1 = mk buf cap <$> seqZ 0 (Z.of_nat (length new))
           /\ (exn = None ->
               length new = Z.to_nat (to_DWORD (count (info q))))
           /\ (length new <= Z.to_nat (to_DWORD (count (info q))))%nat
           /\ Forall2 (fun s ev => size (item_name ev.2) < cap ->
                                   s = item_name ev.2) names done
       else r = Err (status q) /\ new = []
            /\ allocations w' = allocations w.
Proof.
  intros q cap buf.
  unfold enum_names, bind. rewrite THROW_IF_WIN32_ERROR_run. fold q.
  destruct (status q =? ERROR_SUCCESS) eqn:Hst.
  - set (w1 := called answer Q w).
    assert (Hh1 : heap w1 = heap w).
    { unfold w1, called; cbn [heap]. apply Q_writes_nothing. }
    unfold make_unique. rewrite Hh1. fold cap buf.
    match goal with
    | |- context [for_loop _ _ _ _ ?x] => set (w2 := x)
    end.
    pose proof (to_DWORD_range (to_DWORD (longest (info q)) + 1)) as Hcap.
    pose proof (to_DWORD_range (count (info q))) as Hcount.
    fold cap in Hcap.
    destruct (sweep_names_spec (mk buf cap) buf
                (mk_writes buf cap) (mk_keeps buf cap)
                (Z.to_nat (to_DWORD (count (info q)))) 0 [] w2
                (replicate (Z.to_nat cap) 0))
      as (new & done & names & exn & w' & content' & Hrun & Hcalls & Hal
          & Hheap & Hlen & Hsw & Hnew & Hnone & Hdone & Hread).
    { unfold w2; cbn [heap]. apply lookup_insert_eq. }
    { rewrite length_replicate. lia. }
    { done. }
    { lia. }
    rewrite Hrun. cbn [app].
    rewrite length_replicate, Z2Nat.id in Hread by lia.
    assert (Hfresh : heap w !! buf = None).
    { apply not_elem_of_dom. apply is_fresh. }
    unfold unique_ptr_destroy. cbv beta iota zeta.
    destruct exn as [e|]; unfold ret, throw.
    all: eexists _, _, new; (split; [reflexivity|]).
    all: cbn [calls heap allocations].
    all: rewrite Hcalls, Hheap, Hal; unfold w2, w1, called;
      cbn [calls heap allocations]; fold q.
    all: rewrite <- app_assoc; split; [done|].
    all: rewrite delete_insert_eq, delete_insert_eq, delete_id by done.
    all: split; [done|].
    + exists done, names, (Some e). done.
    + exists done, names, None. done.
  - unfold called; cbn [calls heap allocations]. fold q.
    eexists _, _, []. split; [reflexivity|]. cbn [calls heap allocations].
    split; [done|]. split; [apply Q_writes_nothing|]. done.
Qed.

Hypothesis mk_index : forall buf cap i, enum_index (mk buf cap i) = Some i.
Hypothesis mk_contract : forall buf cap i r,
  status r = ERROR_SUCCESS -> api_contract (mk buf cap i, r) = true ->
  size (item_name r) < cap.
Hypothesis Q_contract : forall q,
  status q = ERROR_SUCCESS -> api_contract (Q, q) = true ->
  is_DWORD (longest (info q)) = true
  /\ is_DWORD (longest (info q) + 1) = true.

Lemma enum_names_count (w : world Σ) :
  count_as_reported id Q count w (enum_names answer Q count longest mk w).
Proof.
  destruct (enum_names_spec w) as (r & w' & new & Hrun & Hcalls & _ & Hq).
  rewrite Hrun. intros ret_ Hret. cbn [fst snd] in *.
  set (q := reply_to answer Q w) in *.
  destruct (status q =? ERROR_SUCCESS) eqn:Hst.
  2:{ destruct Hq as (-> & _). done. }
  destruct Hq as (done & names & exn & Hr & _ & Hsw & Hnew & Hnone & _ & Hread).
  destruct exn as [e|]; [by rewrite Hret in Hr|].
  rewrite Hret in Hr. injection Hr as ->.
  destruct Hsw as [Hdone ->].
  pose proof (Forall2_length _ _ _ Hread) as Hlen.
  specialize (Hnone eq_refl).
  pose proof (to_DWORD_range (count (info q))).
  exists q, done. split; [done|].
  assert (Hsize : size names = to_DWORD (count (info q))).
  { unfold size. rewrite Hlen, Hnone. lia. }
  split; [done|]. split.
  - unfold size. rewrite Hlen.
    transitivity (enum_index <$> done.*1).
    { by rewrite <- list_fmap_compose. }
    rewrite Hnew, <- list_fmap_compose. apply list_fmap_ext.
    intros _ i _. apply mk_index.
  - apply (Forall2_with_right _ (fun ev => succeeded ev
             /\ exists i, ev.1 = mk (fresh (dom (heap w)))
                 (to_DWORD (to_DWORD (longest (info q)) + 1)) i)) in Hread.
    + eapply Forall2_impl; [exact Hread|].
      intros s [c rsp] [Himp [Hs [i Hc]]] Hapi. cbn [fst snd] in *.
      subst c. apply Himp. by eapply mk_contract.
    + apply Forall_and. split; [done|].
      eapply fst_fmap_image. exact Hnew.
Qed.

Lemma enum_names_all_or_nothing (w : world Σ) :
  all_or_nothing Q count w (enum_names answer Q count longest mk w).
Proof.
  pose proof (enum_names_count w) as Hcount.
  destruct (enum_names_spec w) as (r & w' & new & Hrun & Hcalls & Hheap & Hq).
  rewrite Hrun in *. cbn [fst snd] in *.
  set (q := reply_to answer Q w) in *.
  exists q, new. split; [done|].
  destruct (status q =? ERROR_SUCCESS) eqn:Hst.
  - apply Z.eqb_eq in Hst.
    destruct Hq as (done & names & exn & -> & _ & Hsw & _).
    split; [by eapply sweep_first_failure|]. split.
    { intros ev Hin Hfail.
      by rewrite (sweep_failure_status _ _ _ _ Hsw Hin Hfail). }
    split; [done|].
    intros ret_ Hret. destruct exn as [e|]; [done|].
    destruct Hsw as [Hdone ->]. split; [done|].
    destruct (Hcount ret_ Hret) as (q' & sweep' & Hc' & Hsz & _).
    cbn [fst snd] in Hc'. rewrite Hcalls in Hc'. apply app_inv_head in Hc'.
    injection Hc' as <- _. done.
  - apply Z.eqb_neq in Hst. destruct Hq as (-> & -> & _).
    split.
    { exists [], (Q, q). split; [done|]. split; [constructor|done]. }
    split. { intros ev Hin. by apply elem_of_nil in Hin. }
    split; [done|]. intros ret_ Hret. done.
Qed.

Lemma enum_names_two_phase (w : world Σ) :
  two_phase_names Q count longest mk w
    (enum_names answer Q count longest mk w).
Proof.
  destruct (enum_names_spec w) as (r & w' & new & Hrun & Hcalls & Hheap & Hq).
  rewrite Hrun. cbn [fst snd].
  set (q := reply_to answer Q w) in *.
  exists q, new. split; [done|].
  destruct (status q =? ERROR_SUCCESS) eqn:Hst.
  2:{ destruct Hq as (_ & Hn & Ha). done. }
  apply Z.eqb_eq in Hst.
  destruct Hq as (done & names & exn & -> & Hal & Hsw & Hnew & Hnone & Hle & _).
  pose proof (to_DWORD_range (count (info q))) as Hcnt.
  exists (fresh (dom (heap w))).
  split. { apply not_elem_of_dom. apply is_fresh. }
  split; [done|]. split.
  { intros Hapi. destruct (Q_contract q Hst Hapi) as [H1 H2].
    unfold is_DWORD in H1, H2.
    rewrite (to_DWORD_small (longest (info q))) by lia.
    apply to_DWORD_small. lia. }
  split; [done|]. split; [unfold size; lia|]. split.
  { intros ret_ Hret. destruct exn as [e|]; [done|].
    unfold size. rewrite (Hnone eq_refl). lia. }
  eapply Forall_impl; [eapply fst_fmap_image; exact Hnew|].
  intros [c rsp] [i Hc] Hs Hapi. cbn [fst snd] in *. subst c.
  pose proof (mk_contract _ _ _ rsp Hs Hapi). lia.
Qed.
End EnumNames.

Lemma Forall2_with_left {A B} (P : A -> B -> Prop) (R : A -> Prop)
    (l : list A) (k : list B) :
  Forall2 P l k -> Forall R l -> Forall2 (fun x y => P x y /\ R x) l k.
Proof.
  induction 1 as [|x y l k HP _ IH]; intros HR; [constructor|].
  apply Forall_cons in HR as [HRx HR]. constructor; [done|]. by apply IH.
Qed.

Lemma destroy_values_run (vals : list (list Z * Value)) (w : world Σ) :
  exists w',
    destroy_values vals w = (Ok tt, w')
    /\ calls w' = calls w /\ allocations w' = allocations w
    /\ registry w' = registry w
    /\ forall p, heap w' !! p
                 = if decide (p ∈ (fun nv => data nv.2) <$> vals)
                   then None else heap w !! p.
Proof.
  revert w. induction vals as [|[name V] vals IH]; intros w.
  - exists w. cbn [destroy_values]. unfold ret.
    repeat (split; [done|]). intros p. rewrite fmap_nil.
    destruct (decide (p ∈ [])) as [Hin|_]; [|done].
    by apply elem_of_nil in Hin.
  - cbn [destroy_values]. unfold bind, unique_ptr_destroy.
    match goal with
    | |- context [destroy_values vals ?x] => destruct (IH x)
        as (w' & Hrun & Hc & Ha & Hr & Hh)
    end.
    exists w'. rewrite Hrun, Hc, Ha, Hr. cbn [calls allocations registry heap].
    repeat (split; [done|]). intros p. rewrite Hh. cbn [heap snd].
    rewrite fmap_cons. cbn [snd].
    destruct (decide (p ∈ (fun nv => data nv.2) <$> vals)) as [Hin|Hout].
    + rewrite decide_True; [done|]. apply elem_of_cons. by right.
    + destruct (decide (p = data V)) as [->|Hne].
      * rewrite decide_True by (apply elem_of_cons; by left).
        apply lookup_delete_eq.
      * rewrite decide_False.
        -- by apply lookup_delete_ne.
        -- intros Hin. apply elem_of_cons in Hin as [?|?]; done.
Qed.

Lemma Key_enum_values_spec (this : Key) (w : world Σ) :
  let Q := RegQueryInfoKeyW (Key_get this) request_values in
  let q := reply_to answer Q w in
  let count := Z.to_nat (to_DWORD (cValues (info q))) in
  let capN := to_DWORD (to_DWORD (cbMaxValueNameLen (info q)) + 1) in
  let capV := to_DWORD (cbMaxValueLen (info q)) in
  exists r w' new,
    Key_enum_values answer this w = (r, w')
    /\ calls w' = calls w ++ (Q, q) :: new
    /\ if status q =? ERROR_SUCCESS then
         exists nameBuf valBuf done vals exn,
           heap w !! nameBuf = None /\ heap w !! valBuf = None
           /\ nameBuf <> valBuf
           /\ r = match exn with None => Ok vals | Some e => Err e end
           /\ allocations w'
              = allocations w ++ (nameBuf, capN) :: (valBuf, capV)
                  :: ((fun nv => (data nv.2, length_ nv.2)) <$> vals)
           /\ sweep_calls new exn done
           /\ new.*1
              = (fun i => RegEnumValueW (Key_get this) i nameBuf capN true
                                        (Some valBuf) (Some capV))
                <$> seqZ 0 (Z.of_nat (length new))
           /\ (exn = None -> length new = count)
           /\ (length new <= count)%nat
           /\ NoDup ((fun nv => data nv.2) <$> vals)
           /\ Forall (fun nv => heap w !! data nv.2 = None
                                /\ data nv.2 <> nameBuf
                                /\ data nv.2 <> valBuf) vals
           /\ length vals = length done
           /\ match exn with
              | None =>
                  (forall p, p ∉ (fun nv => data nv.2) <$> vals ->
                             heap w' !! p = heap w !! p)
                  /\ Forall2 (value_read capN capV (heap w')) vals done
              | Some _ => heap w' = heap w
              end
       else r = Err (status q) /\ new = []
            /\ allocations w' = allocations w /\ heap w' = heap w.
Proof.
  intros Q q count capN capV.
  unfold Key_enum_values, bind. fold Q.
  rewrite THROW_IF_WIN32_ERROR_run. fold q.
  destruct (status q =? ERROR_SUCCESS) eqn:Hst.
  2:{ unfold called; cbn [calls heap allocations]. fold q.
      eexists _, _, []. split; [reflexivity|]. cbn [calls heap allocations].
      unfold out_writes. rewrite Hst. done. }
  set (w1 := called answer Q w).
  assert (Hh1 : heap w1 = heap w).
  { unfold w1, called; cbn [heap]. unfold out_writes.
    by destruct (status _ =? _). }
  unfold make_unique. cbn [heap calls allocations registry]. rewrite Hh1.
  fold capN capV count.
  set (nameBuf := fresh (dom (heap w))).
  set (h2 := <[nameBuf := replicate (Z.to_nat capN) 0]> (heap w)).
  set (valBuf := fresh (dom h2)).
  set (h3 := <[valBuf := replicate (Z.to_nat capV) 0]> h2).
  match goal with
  | |- context [for_loop _ _ _ _ ?x] => set (w3 := x)
  end.
  assert (HfN : heap w !! nameBuf = None).
  { apply not_elem_of_dom. apply is_fresh. }
  assert (HfV2 : h2 !! valBuf = None).
  { apply not_elem_of_dom. apply is_fresh. }
  assert (Hne : nameBuf <> valBuf).
  { intros E. rewrite <- E in HfV2. unfold h2 in HfV2.
    by rewrite lookup_insert_eq in HfV2. }
  assert (HfV : heap w !! valBuf = None).
  { unfold h2 in HfV2. by rewrite lookup_insert_ne in HfV2. }
  pose proof (to_DWORD_range (to_DWORD (cbMaxValueNameLen (info q)) + 1)) as HcapN.
  pose proof (to_DWORD_range (cbMaxValueLen (info q))) as HcapV.
  pose proof (to_DWORD_range (cValues (info q))) as Hcount.
  fold capN in HcapN. fold capV in HcapV.
  destruct (sweep_values_spec (Key_get this) capN capV nameBuf valBuf Hne
              count 0 [] w3
              (replicate (Z.to_nat capN) 0) (replicate (Z.to_nat capV) 0))
    as (new & done & vals & exn & w' & cn' & cv' & Hrun & Hcalls & Hal
        & Hsw & Hnew & Hnone & Hdone & Hn' & Hcn' & Hv' & Hcv'
        & Hframe & Hfresh & Hnd & Hread).
  { unfold w3, h3, h2; cbn [heap].
    by rewrite lookup_insert_ne, lookup_insert_eq. }
  { unfold w3, h3; cbn [heap]. by rewrite lookup_insert_eq. }
  { rewrite length_replicate. lia. }
  { rewrite length_replicate. lia. }
  { lia. } { lia. } { done. } { unfold count. lia. }
  rewrite Hrun. cbn [app].
  assert (Hfresh' : Forall (fun nv => heap w !! data nv.2 = None
                                      /\ data nv.2 <> nameBuf
                                      /\ data nv.2 <> valBuf) vals).
  { eapply Forall_impl; [exact Hfresh|]. intros nv Hnv. cbn beta in Hnv.
    unfold w3, h3, h2 in Hnv; cbn [heap] in Hnv.
    apply lookup_insert_None in Hnv as [Hnv ?].
    apply lookup_insert_None in Hnv as [Hnv ?]. done. }
  assert (Hlen : length vals = length done).
  { by eapply Forall2_length. }
  unfold unique_ptr_destroy. cbv beta iota zeta.
  cbn [heap calls allocations registry].
  destruct exn as [e|].
  - match goal with
    | |- context [destroy_values vals ?x] =>
        destruct (destroy_values_run vals x)
          as (w'' & Hrun' & Hc' & Ha' & Hr' & Hh')
    end.
    rewrite Hrun'. unfold throw.
    eexists _, _, new. split; [reflexivity|].
    rewrite Hc', Ha'. cbn [heap calls allocations registry].
    rewrite Hcalls, Hal. unfold w3, w1, called; cbn [calls allocations].
    fold q. rewrite <- !app_assoc. split; [done|].
    exists nameBuf, valBuf, done, vals, (Some e).
    repeat (split; [done|]).
    apply map_eq; intros p. rewrite Hh'. cbn [heap].
    destruct (decide (p ∈ (fun nv => data nv.2) <$> vals)) as [Hin|Hout].
    + apply list_elem_of_fmap in Hin as (nv & -> & Hel).
      rewrite Forall_forall in Hfresh'. symmetry. by apply Hfresh'.
    + destruct (decide (p = nameBuf)) as [->|HpN].
      { by rewrite lookup_delete_eq. }
      rewrite lookup_delete_ne by done.
      destruct (decide (p = valBuf)) as [->|HpV].
      { by rewrite lookup_delete_eq. }
      rewrite lookup_delete_ne by done.
      rewrite Hframe by done. unfold w3, h3, h2; cbn [heap].
      by rewrite !lookup_insert_ne.
  - unfold ret.
    eexists _, _, new. split; [reflexivity|].
    cbn [heap calls allocations registry].
    rewrite Hcalls, Hal. unfold w3, w1, called; cbn [calls allocations].
    fold q. rewrite <- !app_assoc. split; [done|].
    exists nameBuf, valBuf, done, vals, None.
    repeat (split; [done|]).
    split.
    + intros p Hout.
      destruct (decide (p = nameBuf)) as [->|HpN].
      { by rewrite lookup_delete_eq. }
      rewrite lookup_delete_ne by done.
      destruct (decide (p = valBuf)) as [->|HpV].
      { by rewrite lookup_delete_eq. }
      rewrite lookup_delete_ne by done.
      rewrite Hframe by done. unfold w3, h3, h2; cbn [heap].
      by rewrite !lookup_insert_ne.
    + eapply Forall2_impl.
      * apply Forall2_with_left; [exact Hread | exact Hfresh'].
      * intros nv ev [(Hl & Ht & Hs & Hnm & Hby) (_ & HnN & HnV)].
        unfold value_read.
        rewrite !lookup_delete_ne by done. done.
Qed.

(** Instances *)

Lemma query_writes_nothing (hKey : Z) (req : info_request) (r : response)
    (h : gmap positive (list Z)) :
  out_writes (RegQueryInfoKeyW hKey req) r h = h.
Proof. unfold out_writes. by destruct (status r =? ERROR_SUCCESS). Qed.

Lemma api_contract_success (c : call) (r : response) :
  status r = ERROR_SUCCESS -> api_contract (c, r) = true ->
  match c with
  | RegCreateKeyExW _ _ _ _ _ _ _ _ | RegOpenKeyExW _ _ _ _ =>
      phkResult r <> 0
  | RegQueryInfoKeyW _ req =>
      (lpcSubKeys req = true -> 0 <= cSubKeys (info r) < 2 ^ 32)
      /\ (lpcbMaxSubKeyLen req = true ->
          0 <= cbMaxSubKeyLen (info r) < 2 ^ 32 - 1)
      /\ (lpcValues req = true -> 0 <= cValues (info r) < 2 ^ 32)
      /\ (lpcbMaxValueNameLen req = true ->
          0 <= cbMaxValueNameLen (info r) < 2 ^ 32 - 1)
      /\ (lpcbMaxValueLen req = true ->
          0 <= cbMaxValueLen (info r) < 2 ^ 32)
  | RegEnumKeyExW _ _ _ cch => size (item_name r) < cch
  | RegEnumValueW _ _ _ cch lpType _ cb =>
      size (item_name r) < cch
      /\ (lpType = true -> 0 <= item_type r < 2 ^ 32)
      /\ match cb with
         | Some n => size (item_data r) <= n
         | None => True
         end
  | _ => True
  end.
Proof.
  intros Hst. unfold api_contract. cbn [fst snd]. rewrite Hst.
  cbn [Z.eqb ERROR_SUCCESS negb orb].
  destruct c; try done.
  - intros H. apply negb_true_iff, Z.eqb_neq in H. done.
  - intros H. apply negb_true_iff, Z.eqb_neq in H. done.
  - destruct request as [a b c d e]; cbn [lpcSubKeys lpcbMaxSubKeyLen
      lpcValues lpcbMaxValueNameLen lpcbMaxValueLen].
    unfold asked, is_DWORD. intros H.
    repeat (apply andb_true_iff in H as [H ?]).
    destruct a, b, c, d, e; cbn [implb] in *; repeat split; intros; try done; lia.
  - intros H. by apply Z.ltb_lt.
  - unfold asked, is_DWORD. intros H.
    repeat (apply andb_true_iff in H as [H ?]).
    split; [by apply Z.ltb_lt|]. split.
    + intros ->. cbn [implb] in *. lia.
    + destruct lpcbData; [by apply Z.leb_le|done].
Qed.

Lemma Key_enum_subkeys_count (this : Key) (w : world Σ) :
  count_as_reported id (RegQueryInfoKeyW (Key_get this) request_subkeys)
    cSubKeys w (Key_enum_subkeys answer this w).
Proof.
  rewrite Key_enum_subkeys_shape. apply enum_names_count.
  - apply query_writes_nothing.
  - intros buf cap i r h Hst. unfold out_writes. by rewrite Hst.
  - intros buf cap i r h Hst. unfold out_writes.
    apply Z.eqb_neq in Hst. by rewrite Hst.
  - done.
  - intros buf cap i r Hst Hapi.
    exact (api_contract_success _ _ Hst Hapi).
Qed.
Lemma Key_enum_subkeys_all_or_nothing (this : Key) (w : world Σ) :
  all_or_nothing (RegQueryInfoKeyW (Key_get this) request_subkeys)
    cSubKeys w (Key_enum_subkeys answer this w).
Proof.
  rewrite Key_enum_subkeys_shape. apply enum_names_all_or_nothing.
  - apply query_writes_nothing.
  - intros buf cap i r h Hst. unfold out_writes. by rewrite Hst.
  - intros buf cap i r h Hst. unfold out_writes.
    apply Z.eqb_neq in Hst. by rewrite Hst.
  - done.
  - intros buf cap i r Hst Hapi.
    exact (api_contract_success _ _ Hst Hapi).
Qed.

Lemma Key_enum_subkeys_two_phase (this : Key) (w : world Σ) :
  two_phase_names (RegQueryInfoKeyW (Key_get this) request_subkeys)
    cSubKeys cbMaxSubKeyLen
    (fun buf cap i => RegEnumKeyExW (Key_get this) i buf cap)
    w (Key_enum_subkeys answer this w).
Proof.
  rewrite Key_enum_subkeys_shape. apply enum_names_two_phase.
  - apply query_writes_nothing.
  - intros buf cap i r h Hst. unfold out_writes. by rewrite Hst.
  - intros buf cap i r h Hst. unfold out_writes.
    apply Z.eqb_neq in Hst. by rewrite Hst.
  - intros buf cap i r Hst Hapi.
    exact (api_contract_success _ _ Hst Hapi).
  - intros q Hst Hapi.
    destruct (api_contract_success _ _ Hst Hapi) as (_ & H & _).
    specialize (H eq_refl). unfold is_DWORD.
    split; apply andb_true_iff; split;
      first [apply Z.leb_le | apply Z.ltb_lt]; lia.
Qed.

Lemma value_names_writes (hKey : Z) (buf : positive) (cap i : Z)
    (r : response) (h : gmap positive (list Z)) :
  status r = ERROR_SUCCESS ->
  out_writes (RegEnumValueW hKey i buf cap false None None) r h
  = alter (buf_store (item_name r ++ [NUL])) buf h.
Proof. intros Hst. unfold out_writes. by rewrite Hst. Qed.

Lemma value_names_keeps (hKey : Z) (buf : positive) (cap i : Z)
    (r : response) (h : gmap positive (list Z)) :
  status r <> ERROR_SUCCESS ->
  out_writes (RegEnumValueW hKey i buf cap false None None) r h = h.
Proof.
  intros Hst. unfold out_writes. apply Z.eqb_neq in Hst. by rewrite Hst.
Qed.

Lemma value_names_contract (hKey : Z) (buf : positive) (cap i : Z)
    (r : response) :
  status r = ERROR_SUCCESS ->
  api_contract (RegEnumValueW hKey i buf cap false None None, r) = true ->
  size (item_name r) < cap.
Proof.
  intros Hst Hapi. by destruct (api_contract_success _ _ Hst Hapi).
Qed.

Lemma Key_enum_value_names_count (this : Key) (w : world Σ) :
  count_as_reported id
    (RegQueryInfoKeyW (Key_get this) request_value_names)
    cValues w (Key_enum_value_names answer this w).
Proof.
  rewrite Key_enum_value_names_shape. apply enum_names_count.
  - apply query_writes_nothing.
  - intros buf cap i. apply value_names_writes.
  - intros buf cap i. apply value_names_keeps.
  - done.
  - intros buf cap i. apply value_names_contract.
Qed.

Lemma Key_enum_value_names_all_or_nothing (this : Key) (w : world Σ) :
  all_or_nothing (RegQueryInfoKeyW (Key_get this) request_value_names)
    cValues w (Key_enum_value_names answer this w).
Proof.
  rewrite Key_enum_value_names_shape. apply enum_names_all_or_nothing.
  - apply query_writes_nothing.
  - intros buf cap i. apply value_names_writes.
  - intros buf cap i. apply value_names_keeps.
  - done.
  - intros buf cap i. apply value_names_contract.
Qed.

Lemma Key_enum_value_names_two_phase (this : Key) (w : world Σ) :
  two_phase_names (RegQueryInfoKeyW (Key_get this) request_value_names)
    cValues cbMaxValueNameLen
    (fun buf cap i =>
       RegEnumValueW (Key_get this) i buf cap false None None)
    w (Key_enum_value_names answer this w).
Proof.
  rewrite Key_enum_value_names_shape. apply enum_names_two_phase.
  - apply query_writes_nothing.
  - intros buf cap i. apply value_names_writes.
  - intros buf cap i. apply value_names_keeps.
  - intros buf cap i. apply value_names_contract.
  - intros q Hst Hapi.
    destruct (api_contract_success _ _ Hst Hapi) as (_ & _ & _ & H & _).
    specialize (H eq_refl). unfold is_DWORD.
    split; apply andb_true_iff; split;
      first [apply Z.leb_le | apply Z.ltb_lt]; lia.
Qed.

Lemma Key_enum_values_count (this : Key) (w : world Σ) :
  count_as_reported fst (RegQueryInfoKeyW (Key_get this) request_values)
    cValues w (Key_enum_values answer this w).
Proof.
  destruct (Key_enum_values_spec this w)
    as (r & w' & new & Hrun & Hcalls & Hq).
  rewrite Hrun. intros ret_ Hret. cbn [fst snd] in *.
  set (Q := RegQueryInfoKeyW (Key_get this) request_values) in *.
  set (q := reply_to answer Q w) in *.
  destruct (status q =? ERROR_SUCCESS) eqn:Hst.
  2:{ destruct Hq as (-> & _). done. }
  destruct Hq as (nameBuf & valBuf & done & vals & exn & _ & _ & _ & Hr & _
                  & Hsw & Hnew & Hnone & _ & _ & _ & Hlen & Hheap).
  destruct exn as [e|]; [by rewrite Hret in Hr|].
  rewrite Hret in Hr. injection Hr as ->.
  destruct Hsw as [Hdone ->]. destruct Hheap as [_ Hread].
  specialize (Hnone eq_refl).
  pose proof (to_DWORD_range (cValues (info q))).
  exists q, done. split; [done|].
  assert (Hsize : size vals = to_DWORD (cValues (info q))).
  { unfold size. rewrite Hlen, Hnone. lia. }
  split; [done|]. split.
  - unfold size. rewrite Hlen.
    transitivity (enum_index <$> done.*1).
    { by rewrite <- list_fmap_compose. }
    rewrite Hnew, <- list_fmap_compose. by apply list_fmap_ext.
  - pose proof (fst_fmap_image _ _ _ Hnew) as Himg.
    assert (Hev : Forall (fun ev => succeeded ev /\ exists i, ev.1 =
               RegEnumValueW (Key_get this) i nameBuf
                 (to_DWORD (to_DWORD (cbMaxValueNameLen (info q)) + 1)) true
                 (Some valBuf) (Some (to_DWORD (cbMaxValueLen (info q)))))
              done).
    { apply Forall_and. by split. }
    pose proof (Forall2_with_right _ _ _ _ Hread Hev) as Hboth.
    eapply Forall2_impl; [exact Hboth|].
    intros nv [c rsp] [(_ & _ & _ & Hname & _) [Hs [i Hc]]] Hapi.
      cbn [fst snd] in *. subst c. apply Hname.
      by destruct (api_contract_success _ _ Hs Hapi).
Qed.

Lemma Key_enum_values_all_or_nothing (this : Key) (w : world Σ) :
  all_or_nothing (RegQueryInfoKeyW (Key_get this) request_values)
    cValues w (Key_enum_values answer this w).
Proof.
  pose proof (Key_enum_values_count this w) as Hcount.
  destruct (Key_enum_values_spec this w)
    as (r & w' & new & Hrun & Hcalls & Hq).
  rewrite Hrun in *. cbn [fst snd] in *.
  set (Q := RegQueryInfoKeyW (Key_get this) request_values) in *.
  set (q := reply_to answer Q w) in *.
  exists q, new. split; [done|].
  destruct (status q =? ERROR_SUCCESS) eqn:Hst.
  - apply Z.eqb_eq in Hst.
    destruct Hq as (nameBuf & valBuf & done & vals & exn & _ & _ & _ & ->
                    & _ & Hsw & _ & _ & _ & _ & _ & _ & Hheap).
    split; [by eapply sweep_first_failure|]. split.
    { intros ev Hin Hfail.
      by rewrite (sweep_failure_status _ _ _ _ Hsw Hin Hfail). }
    split. { intros e He. by destruct exn. }
    intros ret_ Hret. destruct exn as [e|]; [done|].
    destruct Hsw as [Hdone ->]. split; [done|].
    destruct (Hcount ret_ Hret) as (q' & sweep' & Hc' & Hsz & _).
    cbn [fst snd] in Hc'. rewrite Hcalls in Hc'. apply app_inv_head in Hc'.
    injection Hc' as <- _. done.
  - apply Z.eqb_neq in Hst. destruct Hq as (-> & -> & _ & Hheap).
    split.
    { exists [], (Q, q). split; [done|]. split; [constructor|done]. }
    split. { intros ev Hin. by apply elem_of_nil in Hin. }
    split; [done|]. intros ret_ Hret. done.
Qed.

Lemma Key_enum_values_two_phase (this : Key) (w : world Σ) :
  two_phase_values (Key_get this) w (Key_enum_values answer this w).
Proof.
  destruct (Key_enum_values_spec this w)
    as (r & w' & new & Hrun & Hcalls & Hq).
  rewrite Hrun. cbn [fst snd].
  set (Q := RegQueryInfoKeyW (Key_get this) request_values) in *.
  set (q := reply_to answer Q w) in *.
  exists q, new. split; [done|].
  destruct (status q =? ERROR_SUCCESS) eqn:Hst.
  2:{ destruct Hq as (_ & Hn & Ha & _). done. }
  apply Z.eqb_eq in Hst.
  destruct Hq as (nameBuf & valBuf & done & vals & exn & HfN & HfV & Hne & ->
                  & Hal & Hsw & Hnew & Hnone & Hle & _).
  pose proof (to_DWORD_range (cValues (info q))) as Hcnt.
  exists nameBuf, valBuf, ((fun nv => (data nv.2, length_ nv.2)) <$> vals).
  repeat (split; [done|]). split.
  { intros Hapi.
    destruct (api_contract_success _ _ Hst Hapi) as (_ & _ & _ & H1 & H2).
    specialize (H1 eq_refl). specialize (H2 eq_refl).
    rewrite (to_DWORD_small (cbMaxValueNameLen (info q))) by lia.
    split; apply to_DWORD_small; lia. }
  split; [done|]. split; [unfold size; lia|]. split.
  { intros ret_ Hret. destruct exn as [e|]; [done|].
    unfold size. rewrite (Hnone eq_refl). lia. }
  eapply Forall_impl; [eapply fst_fmap_image; exact Hnew|].
  intros [c rsp] [i Hc] Hs Hapi. cbn [fst snd] in *. subst c.
  destruct (api_contract_success _ rsp Hs Hapi) as (H1 & _ & H2). lia.
Qed.

(** ** The enumerators *)

(** C3.  A collection returned by [enum_subkeys], [enum_values] or
    [enum_value_names] has exactly as many entries as the count that the
    size query issued first, on the same key, stored; the entries are in
    the order of the indices 0, 1, ... that the sweep asked the registry
    for, each named as the item the registry handed back for its index. *)
Theorem enumeration_count (this : Key) (w : world Σ) :
  count_as_reported id
    (RegQueryInfoKeyW (Key_get this) request_subkeys) cSubKeys
    w (Key_enum_subkeys answer this w)
  /\ count_as_reported fst
       (RegQueryInfoKeyW (Key_get this) request_values) cValues
       w (Key_enum_values answer this w)
  /\ count_as_reported id
       (RegQueryInfoKeyW (Key_get this) request_value_names) cValues
       w (Key_enum_value_names answer this w).
Proof.
  split; [apply Key_enum_subkeys_count|].
  split; [apply Key_enum_values_count|apply Key_enum_value_names_count].
Qed.

(** C4.  Each enumerator is all or nothing: when a call of the sweep
    fails, the run fails with the status of that call, which is the last
    call issued; a failed run leaves no block of its own on the heap, so
    what had been collected is gone; a run that returns made only
    successful calls and returns a complete collection. *)
Theorem enumeration_all_or_nothing (this : Key) (w : world Σ) :
  all_or_nothing (RegQueryInfoKeyW (Key_get this) request_subkeys)
    cSubKeys w (Key_enum_subkeys answer this w)
  /\ all_or_nothing (RegQueryInfoKeyW (Key_get this) request_values)
       cValues w (Key_enum_values answer this w)
  /\ all_or_nothing (RegQueryInfoKeyW (Key_get this) request_value_names)
       cValues w (Key_enum_value_names answer this w).
Proof.
  split; [apply Key_enum_subkeys_all_or_nothing|].
  split; [apply Key_enum_values_all_or_nothing|].
  apply Key_enum_value_names_all_or_nothing.
Qed.

(** C5.  When [enum_values] returns, the i-th [Value] goes with the i-th
    sweep call: its [length] is the byte length that call stored and its
    block holds exactly the bytes of that item; the blocks of the values
    are pairwise distinct, were not live before the run, differ from both
    sweep buffers (which are dead when the run returns), and each was
    obtained by its own [make_unique] of exactly [length] bytes. *)
Theorem enum_values_owns_buffers (this : Key) (w : world Σ)
    (ret_ : list (list Z * Value)) (w' : world Σ) :
  Key_enum_values answer this w = (Ok ret_, w') ->
  exists q sweep nameBuf valBuf capN capV,
    calls w'
    = calls w ++ (RegQueryInfoKeyW (Key_get this) request_values, q) :: sweep
    /\ sweep.*1
       = (fun i => RegEnumValueW (Key_get this) i nameBuf capN true
                                 (Some valBuf) (Some capV))
         <$> seqZ 0 (size ret_)
    /\ Forall2 (value_as_reported (heap w')) ret_ sweep
    /\ NoDup ((fun nv => data nv.2) <$> ret_)
    /\ Forall (fun nv => heap w !! data nv.2 = None
                         /\ data nv.2 <> nameBuf
                         /\ data nv.2 <> valBuf) ret_
    /\ heap w' !! nameBuf = None /\ heap w' !! valBuf = None
    /\ (forall p, p ∉ (fun nv => data nv.2) <$> ret_ ->
                  heap w' !! p = heap w !! p)
    /\ allocations w'
       = allocations w ++ (nameBuf, capN) :: (valBuf, capV)
           :: ((fun nv => (data nv.2, length_ nv.2)) <$> ret_).
Proof.
  intros Hok.
  destruct (Key_enum_values_spec this w)
    as (r & w'' & new & Hrun & Hcalls & Hq).
  rewrite Hok in Hrun. injection Hrun as <- <-.
  set (Q := RegQueryInfoKeyW (Key_get this) request_values) in *.
  set (q := reply_to answer Q w) in *.
  destruct (status q =? ERROR_SUCCESS) eqn:Hst.
  2:{ by destruct Hq as (? & _). }
  destruct Hq as (nameBuf & valBuf & done & vals & exn & HfN & HfV & Hne
                  & Hr & Hal & Hsw & Hnew & Hnone & _ & Hnd & Hfresh
                  & Hlen & Hheap).
  destruct exn as [e|]; [done|]. injection Hr as ->.
  destruct Hsw as [Hdone ->]. destruct Hheap as [Hframe Hread].
  assert (HoutN : nameBuf ∉ (fun nv => data nv.2) <$> vals).
  { intros Hin. apply list_elem_of_fmap in Hin as (nv & Heq & Hel).
    rewrite Forall_forall in Hfresh.
    destruct (Hfresh _ Hel) as (_ & Hn & _). by rewrite Heq in Hn. }
  assert (HoutV : valBuf ∉ (fun nv => data nv.2) <$> vals).
  { intros Hin. apply list_elem_of_fmap in Hin as (nv & Heq & Hel).
    rewrite Forall_forall in Hfresh.
    destruct (Hfresh _ Hel) as (_ & _ & Hv). by rewrite Heq in Hv. }
  eexists q, done, nameBuf, valBuf, _, _.
  split; [done|]. split.
  { unfold size. rewrite Hlen. exact Hnew. }
  split.
  { pose proof (succeeded_image _ _ _ Hdone Hnew) as Hev.
    pose proof (Forall2_with_right _ _ _ _ Hread Hev) as Hboth.
    eapply Forall2_impl; [exact Hboth|].
    intros nv [c rsp] [(Hl & Ht & Hs & Hname & Hbytes) [Hsucc [i Hc]]].
    unfold value_as_reported. cbn [fst snd] in *. subst c.
    split; [done|]. split; [done|]. intros Hapi.
    destruct (api_contract_success _ rsp Hsucc Hapi) as (H1 & H2 & H3).
    pose proof (to_DWORD_range (cbMaxValueLen (info q))).
    split. { rewrite Hl. apply to_DWORD_small. unfold size in *. lia. }
    split; [by apply Hbytes|]. split; [|by apply Hname].
    rewrite Ht. apply to_DWORD_small. by apply H2. }
  split; [done|]. split; [done|].
  split; [by rewrite Hframe|]. split; [by rewrite Hframe|].
  split; [done|]. done.
Qed.

(** C9.  Each enumerator follows the two-phase protocol: one size query;
    then one buffer per kind of output, with as many elements as the
    queried maximum, plus one where a terminator is stored (names), that
    is reused by every call of the sweep; then one enumerate-at-index
    call per index from 0, [count] calls when the run returns, every call
    being given the whole capacity, so that an answer within the contract
    of the API yields a length that fits the buffer. *)
Theorem two_phase_protocol (this : Key) (w : world Σ) :
  two_phase_names (RegQueryInfoKeyW (Key_get this) request_subkeys)
    cSubKeys cbMaxSubKeyLen
    (fun buf cap i => RegEnumKeyExW (Key_get this) i buf cap)
    w (Key_enum_subkeys answer this w)
  /\ two_phase_values (Key_get this) w (Key_enum_values answer this w)
  /\ two_phase_names (RegQueryInfoKeyW (Key_get this) request_value_names)
       cValues cbMaxValueNameLen
       (fun buf cap i =>
          RegEnumValueW (Key_get this) i buf cap false None None)
       w (Key_enum_value_names answer this w).
Proof.
  split; [apply Key_enum_subkeys_two_phase|].
  split; [apply Key_enum_values_two_phase|].
  apply Key_enum_value_names_two_phase.
Qed.

(** ** The setters *)

Lemma set_value_run (c : call) (w : world Σ) :
  writes_once answer c w
    (bind (THROW_IF_WIN32_ERROR answer c) (fun _ => ret tt) w).
Proof.
  unfold writes_once, bind. rewrite THROW_IF_WIN32_ERROR_run.
  by destruct (status (reply_to answer c w) =? ERROR_SUCCESS).
Qed.

Lemma wchar_bytes_length (v : list Z) :
  length (wchar_bytes v) = (2 * length v)%nat.
Proof.
  unfold wchar_bytes. induction v as [|x v IH]; [done|].
  cbn [map concat]. rewrite length_app, IH. cbn [le_bytes length]. lia.
Qed.

Lemma c_str_bytes_length (val : list Z) :
  size (c_str_bytes val) = (size val + 1) * sizeof_wchar_t.
Proof.
  unfold size, sizeof_wchar_t.
  change (c_str_bytes val) with (wchar_bytes (val ++ [NUL])).
  rewrite wchar_bytes_length, length_app. cbn [length]. lia.
Qed.

Lemma string_size_fits (val : list Z) :
  (size val + 1) * sizeof_wchar_t < 2 ^ 32 ->
  to_DWORD (to_size_t ((size val + 1) * sizeof_wchar_t))
  = (size val + 1) * sizeof_wchar_t.
Proof.
  intros Hfit. unfold to_size_t, size, sizeof_wchar_t in *.
  rewrite (Z.mod_small _ (2 ^ 64)) by lia. apply to_DWORD_small. lia.
Qed.


(** C7, as amended.  For every value name and string,
    [set_expanded_string_value] issues the call that [set_string_value]
    issues, with the same bytes and the same byte count, under the type
    [REG_EXPAND_SZ] instead of [REG_SZ]; what reaches the registry is a
    prefix of the code units of the string itself and its terminator, and
    all of them provided that their byte count can be held in a [DWORD]:
    nothing is expanded. *)
Theorem expanded_string_same_payload (this : Key) (valueName val : list Z)
    (w : world Σ) :
  exists lpData cbData,
    writes_once answer
      (RegSetValueExW (Key_get this) valueName 0 REG_SZ lpData cbData) w
      (Key_set_string_value answer this valueName val w)
    /\ writes_once answer
         (RegSetValueExW (Key_get this) valueName 0 REG_EXPAND_SZ
                         lpData cbData) w
         (Key_set_expanded_string_value answer this valueName val w)
    /\ lpData = wchar_bytes (val ++ [NUL])
    /\ payload (RegSetValueExW (Key_get this) valueName 0 REG_EXPAND_SZ
                               lpData cbData)
       = payload (RegSetValueExW (Key_get this) valueName 0 REG_SZ
                                 lpData cbData)
    /\ payload (RegSetValueExW (Key_get this) valueName 0 REG_EXPAND_SZ
                               lpData cbData)
       `prefix_of` wchar_bytes (val ++ [NUL])
    /\ ((size val + 1) * sizeof_wchar_t < 2 ^ 32 ->
        payload (RegSetValueExW (Key_get this) valueName 0 REG_EXPAND_SZ
                                lpData cbData)
        = wchar_bytes (val ++ [NUL]))
    /\ REG_EXPAND_SZ <> REG_SZ.
Proof.
  exists (c_str_bytes val),
    (to_DWORD (to_size_t ((size val + 1) * sizeof_wchar_t))).
  split; [apply set_value_run|]. split; [apply set_value_run|].
  split; [done|]. split; [done|]. split.
  { unfold payload. apply prefix_take. }
  split; [|done].
  intros Hfit. rewrite (string_size_fits val Hfit).
  unfold payload. apply take_ge.
  pose proof (c_str_bytes_length val) as Hlen.
  change (c_str_bytes val) with (wchar_bytes (val ++ [NUL])) in Hlen.
  unfold size, sizeof_wchar_t in *. lia.
Qed.

(** ** Failure *)

Lemma Key_create_ex_run (this : Key) (hKeyParent : Z) (subKey : list Z)
    (desiredAccess options : Z) (securityAttributes : option Z)
    (disposition : bool) (w : world Σ) :
  let c := RegCreateKeyExW hKeyParent subKey 0 REG_NONE options
                           desiredAccess securityAttributes disposition in
  Key_create_ex answer this hKeyParent subKey desiredAccess options
                securityAttributes disposition w
  = (if status (reply_to answer c w) =? ERROR_SUCCESS
     then Ok {| m_hKey := phkResult (reply_to answer c w) |}
     else Err (status (reply_to answer c w)),
     called answer c w).
Proof.
  intros c. unfold Key_create_ex, bind. fold c.
  rewrite THROW_IF_WIN32_ERROR_run.
  by destruct (status (reply_to answer c w) =? ERROR_SUCCESS).
Qed.

Lemma Key_open_run (this : Key) (hKeyParent : Z) (subKey : list Z)
    (desiredAccess : Z) (w : world Σ) :
  let c := RegOpenKeyExW hKeyParent subKey REG_NONE desiredAccess in
  Key_open answer this hKeyParent subKey desiredAccess w
  = (if status (reply_to answer c w) =? ERROR_SUCCESS
     then Ok {| m_hKey := phkResult (reply_to answer c w) |}
     else Err (status (reply_to answer c w)),
     called answer c w).
Proof.
  intros c. unfold Key_open, bind. fold c.
  rewrite THROW_IF_WIN32_ERROR_run.
  by destruct (status (reply_to answer c w) =? ERROR_SUCCESS).
Qed.

Lemma single_call_surfaces {A} (c : call) (w : world Σ) (x : A) :
  let run := (if status (reply_to answer c w) =? ERROR_SUCCESS
              then Ok x else Err (status (reply_to answer c w)),
              called answer c w) in
  exists new,
    calls (outcome run).2 = calls w ++ new
    /\ first_failure_surfaces (outcome run).1 new.
Proof.
  intros run. exists [(c, reply_to answer c w)]. split; [done|].
  unfold run, outcome. cbn [fst snd].
  destruct (status (reply_to answer c w) =? ERROR_SUCCESS) eqn:Hst.
  - apply Z.eqb_eq in Hst. cbn. by constructor.
  - apply Z.eqb_neq in Hst. cbn.
    exists [], (c, reply_to answer c w). split; [done|].
    split; [constructor|done].
Qed.

Lemma setter_surfaces (c : call) (w : world Σ)
    (run : result unit * world Σ) :
  writes_once answer c w run ->
  exists new,
    calls run.2 = calls w ++ new /\ first_failure_surfaces run.1 new.
Proof.
  intros ->. destruct (single_call_surfaces c w tt) as (new & Hc & Hf).
  exists new. split; [exact Hc|].
  unfold outcome in Hf. cbn [fst snd] in *.
  by destruct (status (reply_to answer c w) =? ERROR_SUCCESS).
Qed.

Lemma enumerator_surfaces {A} (Q : call) (count : key_info -> Z)
    (w : world Σ) (run : result (list A) * world Σ) :
  all_or_nothing Q count w run ->
  exists new,
    calls (outcome run).2 = calls w ++ new
    /\ first_failure_surfaces (outcome run).1 new.
Proof.
  intros (q & sweep & Hc & Hf & _). exists ((Q, q) :: sweep).
  split; [done|]. unfold outcome. cbn [fst snd].
  by destruct run.1.
Qed.

(** C8.  [delete_value] on a name that the registry reports as absent
    ([ERROR_FILE_NOT_FOUND]) fails with that status, after this one call.
    Every fallible operation of the class treats failure alike: the
    status of each call is checked before anything else is called, so a
    run that returns made only successful calls, and a run that fails
    carries the status of the last call it issued, the first and only one
    that failed; no call follows a failed one. *)
Theorem failures_surface :
  (forall (this : Key) (valueName : list Z) (w : world Σ),
     status (reply_to answer (RegDeleteValueW (Key_get this) valueName) w)
     = ERROR_FILE_NOT_FOUND ->
     Key_delete_value answer this valueName w
     = (Err ERROR_FILE_NOT_FOUND,
        called answer (RegDeleteValueW (Key_get this) valueName) w))
  /\ (forall (op : operation) (w : world Σ),
        exists new,
          calls (perform answer op w).2 = calls w ++ new
          /\ first_failure_surfaces (perform answer op w).1 new).
Proof.
  split.
  - intros this valueName w Habsent.
    pose proof (set_value_run (RegDeleteValueW (Key_get this) valueName) w)
      as Hrun.
    unfold writes_once in Hrun. rewrite Habsent in Hrun. exact Hrun.
  - intros op w. destruct op; cbn [perform].
    + unfold Key_new, Key_create. rewrite Key_create_ex_run.
      apply single_call_surfaces.
    + unfold Key_new_access, Key_create. rewrite Key_create_ex_run.
      apply single_call_surfaces.
    + unfold Key_create. rewrite Key_create_ex_run.
      apply single_call_surfaces.
    + rewrite Key_create_ex_run. apply single_call_surfaces.
    + rewrite Key_open_run. apply single_call_surfaces.
    + eapply setter_surfaces, set_value_run.
    + eapply setter_surfaces, set_value_run.
    + eapply setter_surfaces, set_value_run.
    + eapply setter_surfaces, set_value_run.
    + eapply setter_surfaces, set_value_run.
    + eapply setter_surfaces, set_value_run.
    + eapply setter_surfaces, set_value_run.
    + eapply enumerator_surfaces, Key_enum_subkeys_all_or_nothing.
    + eapply enumerator_surfaces, Key_enum_values_all_or_nothing.
    + eapply enumerator_surfaces, Key_enum_value_names_all_or_nothing.
    + eapply setter_surfaces, set_value_run.
    + eapply setter_surfaces, set_value_run.
    + eapply setter_surfaces, set_value_run.
Qed.

End Results.

(** ** Construction *)

(** C10.  The two convenience constructors are [create] run on the object
    under construction: each issues one [RegCreateKeyExW] (create-or-open)
    call at once, with the options [REG_OPTION_NON_VOLATILE] and, in the
    two-argument form, the access [KEY_READ | KEY_WRITE]; the constructor
    either throws or yields a [Key] that holds the handle the registry
    handed back, which is a valid one when the answer keeps to the contract:
    no constructed [Key] is left waiting for a later [create] or [open].
    Constructing a [Key] can add a node to the registry: on the sample
    registry it adds the subkey it names. *)
Theorem constructors_create_immediately :
  (forall (Σ : Type) (answer : call -> Σ -> response * Σ) (hKeyParent : Z)
          (subKey : list Z) (desiredAccess : Z) (w : world Σ),
     let c := RegCreateKeyExW hKeyParent subKey 0 REG_NONE
                              REG_OPTION_NON_VOLATILE desiredAccess
                              None false in
     let r := reply_to answer c w in
     Key_new_access answer hKeyParent subKey desiredAccess w
     = (if status r =? ERROR_SUCCESS
        then Ok {| m_hKey := phkResult r |} else Err (status r),
        called answer c w)
     /\ Key_new answer hKeyParent subKey
        = Key_new_access answer hKeyParent subKey (Z.lor KEY_READ KEY_WRITE)
     /\ Key_new_access answer hKeyParent subKey desiredAccess
        = Key_create answer Key_default hKeyParent subKey desiredAccess
     /\ Z.lor KEY_READ KEY_WRITE = 0x2001F
     /\ (forall k,
           (Key_new_access answer hKeyParent subKey desiredAccess w).1 = Ok k ->
           status r = ERROR_SUCCESS
           /\ m_hKey k = phkResult r
           /\ (api_contract (c, r) = true -> Key_is_valid k = true)))
  /\ (exists k w',
        Key_new sim.answer 1 [88] (initial_world sim.sample) = (Ok k, w')
        /\ Key_is_valid k = true
        /\ ([88] ∉ sim.subkeys sim.sample)
        /\ ([88] ∈ sim.subkeys (registry w'))).
Proof.
  split.
  - intros Σ answer hKeyParent subKey desiredAccess w c r.
    assert (Hrun : Key_new_access answer hKeyParent subKey desiredAccess w
                   = (if status r =? ERROR_SUCCESS
                      then Ok {| m_hKey := phkResult r |} else Err (status r),
                      called answer c w)).
    { unfold Key_new_access, Key_create. apply Key_create_ex_run. }
    split; [exact Hrun|]. split; [done|]. split; [done|]. split; [done|].
    intros k Hk. rewrite Hrun in Hk. cbn [fst] in Hk.
    destruct (status r =? ERROR_SUCCESS) eqn:Hst; [|done].
    apply Z.eqb_eq in Hst. injection Hk as <-.
    split; [done|]. split; [done|]. intros Hapi.
    pose proof (api_contract_success c r Hst Hapi) as Hh. cbn in Hh.
    unfold Key_is_valid. cbn [m_hKey].
    apply negb_true_iff, Z.eqb_neq. exact Hh.
  - eexists _, _. split; [vm_compute; reflexivity|].
    split; [done|]. split.
    + intros Hin. unfold sim.sample in Hin. cbn [sim.subkeys] in Hin.
      repeat (apply elem_of_cons in Hin as [Hin|Hin]; [done|]).
      by apply elem_of_nil in Hin.
    + cbn [registry sim.subkeys].
      do 3 (apply elem_of_cons; right). apply elem_of_cons. by left.
Qed.

(** * The results on the sample registry *)

(** The key [sim.sample] behind the handle 256, in a world before any
    call. *)
Lemma enumeration_count_witness :
  let this := {| m_hKey := 256 |} in
  let w := initial_world sim.sample in
  ((Key_enum_subkeys sim.answer this w).1 = Ok [[65]; [66; 66]; [67; 67; 67]]
   /\ exists q sweep,
        calls (Key_enum_subkeys sim.answer this w).2
        = calls w ++ (RegQueryInfoKeyW 256 request_subkeys, q) :: sweep
        /\ size [[65]; [66; 66]; [67; 67; 67]] = to_DWORD (cSubKeys (info q))
        /\ (fun ev => enum_index ev.1) <$> sweep
           = Some <$> seqZ 0 (size [[65]; [66; 66]; [67; 67; 67]])
        /\ Forall2 (fun x ev => api_contract ev = true ->
                                id x = item_name ev.2)
                   [[65]; [66; 66]; [67; 67; 67]] sweep)
  /\ ((Key_enum_values sim.answer this w).1 = Ok sim.sample_values
      /\ exists q sweep,
           calls (Key_enum_values sim.answer this w).2
           = calls w ++ (RegQueryInfoKeyW 256 request_values, q) :: sweep
           /\ size sim.sample_values = to_DWORD (cValues (info q))
           /\ (fun ev => enum_index ev.1) <$> sweep
              = Some <$> seqZ 0 (size sim.sample_values)
           /\ Forall2 (fun x ev => api_contract ev = true ->
                                   x.1 = item_name ev.2)
                      sim.sample_values sweep)
  /\ ((Key_enum_value_names sim.answer this w).1 = Ok [[110]; [115]; [98]]
      /\ exists q sweep,
           calls (Key_enum_value_names sim.answer this w).2
           = calls w ++ (RegQueryInfoKeyW 256 request_value_names, q) :: sweep
           /\ size [[110]; [115]; [98]] = to_DWORD (cValues (info q))
           /\ (fun ev => enum_index ev.1) <$> sweep
              = Some <$> seqZ 0 (size [[110]; [115]; [98]])
           /\ Forall2 (fun x ev => api_contract ev = true ->
                                   id x = item_name ev.2)
                      [[110]; [115]; [98]] sweep).
Proof.
  intros this w.
  destruct (enumeration_count sim.answer this w) as (Hsub & Hval & Hnam).
  split; [|split].
  - assert (Hrun : (Key_enum_subkeys sim.answer this w).1
                   = Ok [[65]; [66; 66]; [67; 67; 67]])
      by (vm_compute; reflexivity).
    split; [exact Hrun|]. exact (Hsub _ Hrun).
  - assert (Hrun : (Key_enum_values sim.answer this w).1
                   = Ok sim.sample_values)
      by (vm_compute; reflexivity).
    split; [exact Hrun|]. exact (Hval _ Hrun).
  - assert (Hrun : (Key_enum_value_names sim.answer this w).1
                   = Ok [[110]; [115]; [98]])
      by (vm_compute; reflexivity).
    split; [exact Hrun|]. exact (Hnam _ Hrun).
Defined.

(** The same key when the registry refuses to enumerate the item at
    index 2: both items collected before are dropped with the run. *)
Lemma enumeration_all_or_nothing_witness :
  let this := {| m_hKey := 256 |} in
  let w := initial_world sim.sample in
  let run := Key_enum_values (sim.answer_denying 2) this w in
  run.1 = Err ERROR_ACCESS_DENIED
  /\ length (allocations run.2) = 4%nat
  /\ heap run.2 = heap w
  /\ all_or_nothing (RegQueryInfoKeyW 256 request_values) cValues w run.
Proof.
  intros this w run.
  destruct (enumeration_all_or_nothing (sim.answer_denying 2) this w)
    as (_ & Hval & _).
  assert (Hrun : run.1 = Err ERROR_ACCESS_DENIED) by (vm_compute; reflexivity).
  split; [exact Hrun|]. split; [vm_compute; reflexivity|].
  split; [|exact Hval].
  destruct Hval as (q & sweep & _ & _ & _ & Hheap & _).
  exact (Hheap _ Hrun).
Defined.

Lemma enum_values_owns_buffers_witness :
  let this := {| m_hKey := 256 |} in
  let w := initial_world sim.sample in
  let w' := (Key_enum_values sim.answer this w).2 in
  Key_enum_values sim.answer this w = (Ok sim.sample_values, w')
  /\ exists q sweep nameBuf valBuf capN capV,
       calls w'
       = calls w ++ (RegQueryInfoKeyW (Key_get this) request_values, q) :: sweep
       /\ sweep.*1
          = (fun i => RegEnumValueW (Key_get this) i nameBuf capN true
                                    (Some valBuf) (Some capV))
            <$> seqZ 0 (size sim.sample_values)
       /\ Forall2 (value_as_reported (heap w')) sim.sample_values sweep
       /\ NoDup ((fun nv => data nv.2) <$> sim.sample_values)
       /\ Forall (fun nv => heap w !! data nv.2 = None
                            /\ data nv.2 <> nameBuf
                            /\ data nv.2 <> valBuf) sim.sample_values
       /\ heap w' !! nameBuf = None /\ heap w' !! valBuf = None
       /\ (forall p, p ∉ (fun nv => data nv.2) <$> sim.sample_values ->
                     heap w' !! p = heap w !! p)
       /\ allocations w'
          = allocations w ++ (nameBuf, capN) :: (valBuf, capV)
              :: ((fun nv => (data nv.2, length_ nv.2)) <$> sim.sample_values).
Proof.
  intros this w w'.
  assert (Hrun : Key_enum_values sim.answer this w = (Ok sim.sample_values, w')).
  { rewrite (surjective_pairing (Key_enum_values sim.answer this w)).
    f_equal; vm_compute; reflexivity. }
  split; [exact Hrun|].
  exact (enum_values_owns_buffers sim.answer this w _ _ Hrun).
Defined.

Lemma two_phase_protocol_witness :
  let this := {| m_hKey := 256 |} in
  let w := initial_world sim.sample in
  forallb api_contract (calls (Key_enum_subkeys sim.answer this w).2) = true
  /\ calls (Key_enum_subkeys sim.answer this w).2
     = [(RegQueryInfoKeyW 256 request_subkeys,
         (sim.answer (RegQueryInfoKeyW 256 request_subkeys) sim.sample).1);
        (RegEnumKeyExW 256 0 1%positive 4, sim.reply_item [65] 0 []);
        (RegEnumKeyExW 256 1 1%positive 4, sim.reply_item [66; 66] 0 []);
        (RegEnumKeyExW 256 2 1%positive 4, sim.reply_item [67; 67; 67] 0 [])]
  /\ allocations (Key_enum_subkeys sim.answer this w).2 = [(1%positive, 4)]
  /\ two_phase_names (RegQueryInfoKeyW 256 request_subkeys)
       cSubKeys cbMaxSubKeyLen
       (fun buf cap i => RegEnumKeyExW 256 i buf cap)
       w (Key_enum_subkeys sim.answer this w)
  /\ two_phase_values 256 w (Key_enum_values sim.answer this w).
Proof.
  intros this w.
  destruct (two_phase_protocol sim.answer this w) as (Hsub & Hval & _).
  split; [vm_compute; reflexivity|]. split; [vm_compute; reflexivity|].
  split; [vm_compute; reflexivity|]. split; [exact Hsub|exact Hval].
Defined.



Lemma failures_surface_witness :
  let this := {| m_hKey := 256 |} in
  let w := initial_world sim.sample in
  status (reply_to sim.answer (RegDeleteValueW (Key_get this) [120]) w)
  = ERROR_FILE_NOT_FOUND
  /\ Key_delete_value sim.answer this [120] w
     = (Err ERROR_FILE_NOT_FOUND,
        called sim.answer (RegDeleteValueW (Key_get this) [120]) w)
  /\ exists new,
       calls (perform (sim.answer_denying 1) (op_enum_subkeys this) w).2
       = calls w ++ new
       /\ first_failure_surfaces
            (perform (sim.answer_denying 1) (op_enum_subkeys this) w).1 new.
Proof.
  intros this w.
  assert (Habsent : status (reply_to sim.answer
                              (RegDeleteValueW (Key_get this) [120]) w)
                    = ERROR_FILE_NOT_FOUND) by (vm_compute; reflexivity).
  split; [exact Habsent|]. split.
  - exact (proj1 (failures_surface sim.answer) this [120] w Habsent).
  - exact (proj2 (failures_surface (sim.answer_denying 1))
                 (op_enum_subkeys this) w).
Defined.

Lemma constructors_create_immediately_witness :
  let w := initial_world sim.sample in
  let c := RegCreateKeyExW 1 [88] 0 REG_NONE REG_OPTION_NON_VOLATILE
                           (Z.lor KEY_READ KEY_WRITE) None false in
  let k := {| m_hKey := 259 |} in
  (Key_new_access sim.answer 1 [88] (Z.lor KEY_READ KEY_WRITE) w).1 = Ok k
  /\ api_contract (c, reply_to sim.answer c w) = true
  /\ Key_is_valid k = true.
Proof.
  intros w c k.
  destruct (proj1 constructors_create_immediately _ sim.answer 1 [88]
              (Z.lor KEY_READ KEY_WRITE) w) as (_ & _ & _ & _ & Hk).
  assert (Hrun : (Key_new_access sim.answer 1 [88]
                    (Z.lor KEY_READ KEY_WRITE) w).1 = Ok k)
    by (vm_compute; reflexivity).
  assert (Hapi : api_contract (c, reply_to sim.answer c w) = true)
    by (vm_compute; reflexivity).
  split; [exact Hrun|]. split; [exact Hapi|].
  destruct (Hk k Hrun) as (_ & _ & Hvalid). exact (Hvalid Hapi).
Defined.

(** * Further results about the encoder *)

Lemma no_NUL_spec (s : list Z) : no_NUL s = true <-> NUL ∉ s.
Proof.
  unfold no_NUL. induction s as [|c s IH]; cbn [forallb].
  - split; [intros _ H; by apply elem_of_nil in H|done].
  - rewrite andb_true_iff, IH, not_elem_of_cons, negb_true_iff, Z.eqb_neq.
    split; intros [H1 H2]; split; try done; by intros E.
Qed.

Lemma build_multistring_is_wire (strings : list (list Z)) :
  strings <> [] ->
  internals.build_multistring strings = multistring_wire strings.
Proof.
  destruct strings as [|s rest]; [done|]. intros _.
  unfold internals.build_multistring, vector.reserve.
  by rewrite build_loop_concat.
Qed.

Lemma terminated_inj (a b u v : list Z) :
  NUL ∉ a -> NUL ∉ b -> a ++ NUL :: u = b ++ NUL :: v -> a = b /\ u = v.
Proof.
  revert b. induction a as [|x a IH]; intros b Ha Hb Heq.
  - destruct b as [|y b]; cbn in Heq.
    + by injection Heq.
    + injection Heq as <- _. exfalso. apply Hb. apply elem_of_cons. by left.
  - destruct b as [|y b]; cbn in Heq.
    + injection Heq as -> _. exfalso. apply Ha. apply elem_of_cons. by left.
    + injection Heq as -> Heq.
      apply not_elem_of_cons in Ha as [_ Ha].
      apply not_elem_of_cons in Hb as [_ Hb].
      destruct (IH b Ha Hb Heq) as [-> ->]. done.
Qed.

Lemma multistring_wire_inj (l1 l2 : list (list Z)) :
  forallb no_NUL l1 = true -> forallb no_NUL l2 = true ->
  multistring_wire l1 = multistring_wire l2 -> l1 = l2.
Proof.
  unfold multistring_wire.
  revert l2. induction l1 as [|a l1 IH]; intros l2 H1 H2 Heq.
  - destruct l2 as [|b l2]; [done|]. cbn in Heq.
    cbn [forallb] in H2. apply andb_true_iff in H2 as [Hb _].
    apply no_NUL_spec in Hb. rewrite <- !app_assoc in Heq.
    destruct b as [|y b]; cbn in Heq.
    + injection Heq as Heq. apply (f_equal length) in Heq.
      rewrite length_app in Heq. cbn in Heq. lia.
    + injection Heq as <- _. exfalso. apply Hb, elem_of_cons. by left.
  - cbn [forallb] in H1. apply andb_true_iff in H1 as [Ha H1].
    apply no_NUL_spec in Ha.
    destruct l2 as [|b l2].
    + cbn in Heq. rewrite <- !app_assoc in Heq.
      destruct a as [|x a]; cbn in Heq.
      * injection Heq as Heq. apply (f_equal length) in Heq.
        rewrite length_app in Heq. cbn in Heq. lia.
      * injection Heq as -> _. exfalso. apply Ha, elem_of_cons. by left.
    + cbn [forallb] in H2. apply andb_true_iff in H2 as [Hb H2].
      apply no_NUL_spec in Hb.
      cbn [map concat] in Heq. rewrite <- !app_assoc in Heq.
      cbn [app] in Heq.
      destruct (terminated_inj _ _ _ _ Ha Hb Heq) as [-> Heq'].
      f_equal. by apply IH.
Qed.

Lemma multistring_wire_app (l1 l2 : list (list Z)) :
  multistring_wire (l1 ++ l2)
  = concat (map (fun s => s ++ [NUL]) l1) ++ multistring_wire l2.
Proof.
  unfold multistring_wire. by rewrite map_app, concat_app, <- app_assoc.
Qed.

(** X1.  The encoder tells apart any two lists of strings without embedded NUL,
    the empty list included: equal buffers come from equal lists. *)
Theorem build_multistring_injective (l1 l2 : list wstring) :
  forallb no_NUL l1 = true -> forallb no_NUL l2 = true ->
  internals.build_multistring l1 = internals.build_multistring l2 ->
  l1 = l2.
Proof.
  intros H1 H2 Heq.
  destruct l1 as [|a l1], l2 as [|b l2]; [done| | |].
  - rewrite (build_multistring_is_wire (b :: l2)) in Heq by done.
    change (internals.build_multistring []) with (@nil Z) in Heq.
    apply (f_equal length) in Heq. unfold multistring_wire in Heq.
    rewrite length_app in Heq. cbn in Heq. lia.
  - rewrite (build_multistring_is_wire (a :: l1)) in Heq by done.
    change (internals.build_multistring []) with (@nil Z) in Heq.
    apply (f_equal length) in Heq. unfold multistring_wire in Heq.
    rewrite length_app in Heq. cbn in Heq. lia.
  - rewrite !build_multistring_is_wire in Heq by done.
    by apply multistring_wire_inj.
Qed.

Lemma build_multistring_injective_witness :
  [[97]; [98; 98]] = [[97]; [98; 98]] :> list (list Z).
Proof.
  by apply (build_multistring_injective [[97]; [98; 98]] [[97]; [98; 98]]).
Defined.

(** X2.  The encoder neither rejects nor escapes a NUL inside a string: a string
    with an embedded NUL is encoded as the two strings around that NUL. *)
Theorem build_multistring_embedded_NUL (l1 l2 : list wstring)
    (a b : wstring) :
  internals.build_multistring (l1 ++ (a ++ NUL :: b) :: l2)
  = internals.build_multistring (l1 ++ a :: b :: l2).
Proof.
  rewrite !build_multistring_is_wire by (by destruct l1).
  rewrite !multistring_wire_app. f_equal. unfold multistring_wire.
  cbn [map concat]. by rewrite <- !app_assoc.
Qed.

(** X3.  Encoding the concatenation of two non-empty lists: the encoding of the
    first without its final NUL, followed by the encoding of the second. *)
Theorem build_multistring_app (l1 l2 : list wstring) :
  l1 <> [] -> l2 <> [] ->
  internals.build_multistring (l1 ++ l2)
  = removelast (internals.build_multistring l1)
    ++ internals.build_multistring l2.
Proof.
  intros H1 H2.
  rewrite !build_multistring_is_wire by (done || by destruct l1).
  rewrite multistring_wire_app. f_equal. unfold multistring_wire.
  by rewrite removelast_last.
Qed.

Lemma build_multistring_app_witness :
  internals.build_multistring ([[97]] ++ [[98; 98]; [99]])
  = [97; 0] ++ [98; 98; 0; 99; 0; 0].
Proof. by apply (build_multistring_app [[97]] [[98; 98]; [99]]). Defined.

(** X4.  An empty string in the list is encoded as a lone NUL, which follows the
    NUL of the string before it: the encoding of the strings before the
    empty one, final NUL included, is a prefix of the whole encoding. *)
Theorem build_multistring_empty_string (l1 l2 : list wstring) :
  l1 <> [] ->
  internals.build_multistring l1
  `prefix_of` internals.build_multistring (l1 ++ [] :: l2).
Proof.
  intros H1.
  rewrite !build_multistring_is_wire by (done || by destruct l1).
  rewrite multistring_wire_app. unfold multistring_wire at 1.
  apply prefix_app, prefix_cons, prefix_nil.
Qed.

Lemma build_multistring_empty_string_witness :
  [97; 0; 0] `prefix_of` internals.build_multistring [[97]; []; [98]].
Proof. by apply (build_multistring_empty_string [[97]] [[98]]). Defined.

Lemma total_length_fold (strings : list (list Z)) (a : Z) :
  fold_left (fun totalLength s => to_DWORD (totalLength + (size s + 1)))
            strings (to_DWORD a)
  = to_DWORD (a + Z.of_nat (sum_list (map (fun s => length s + 1)%nat strings))).
Proof.
  revert a.
  induction strings as [|s rest IH]; intros a; cbn [fold_left map sum_list].
  - by rewrite Z.add_0_r.
  - rewrite IH. unfold to_DWORD, size.
    rewrite <- Z.add_assoc, Zplus_mod_idemp_l. f_equal. unfold id. lia.
Qed.

(** X5.  The capacity that [build_multistring] reserves before it fills the
    buffer is the final size of the buffer, reduced to a [DWORD]. *)
Theorem total_length_is_size (strings : list wstring) :
  strings <> [] ->
  internals.total_length strings
  = to_DWORD (size (internals.build_multistring strings)).
Proof.
  intros Hne. rewrite build_multistring_is_wire by done.
  unfold size. rewrite multistring_wire_has_length.
  pose proof (total_length_fold strings 1) as Hfold.
  change (to_DWORD 1) with 1 in Hfold.
  unfold internals.total_length, multistring_wire_length.
  rewrite Hfold. f_equal. lia.
Qed.

Lemma total_length_is_size_witness :
  internals.total_length [[97]; [98; 98]] = 6.
Proof. by rewrite (total_length_is_size [[97]; [98; 98]]). Defined.

(** * Further results about the setters *)

Lemma le_value_le_bytes (n : nat) (z : Z) :
  le_value (le_bytes n z) = z mod 256 ^ Z.of_nat n.
Proof.
  revert z. induction n as [|n IH]; intros z.
  - cbn. by rewrite Z.mod_1_r.
  - cbn [le_bytes le_value foldr]. fold (le_value (le_bytes n (z / 256))).
    rewrite IH, Nat2Z.inj_succ, Z.pow_succ_r by lia.
    rewrite Z.rem_mul_r by lia. done.
Qed.

Lemma le_bytes_octets (n : nat) (z : Z) :
  forallb is_BYTE (le_bytes n z) = true.
Proof.
  revert z. induction n as [|n IH]; intros z; [done|].
  cbn [le_bytes forallb]. rewrite IH, andb_true_r.
  unfold is_BYTE. pose proof (Z.mod_pos_bound z 256).
  apply andb_true_iff. split; [apply Z.leb_le|apply Z.ltb_lt]; lia.
Qed.

Lemma wchar_units_bytes (v : list Z) :
  forallb is_wchar_t v = true -> wchar_units (wchar_bytes v) = v.
Proof.
  induction v as [|u v IH]; [done|]. cbn [forallb]. intros H.
  apply andb_true_iff in H as [Hu Hv].
  change (wchar_bytes (u :: v))
    with (u mod 256 :: u / 256 mod 256 :: wchar_bytes v).
  cbn [wchar_units]. rewrite (IH Hv). f_equal.
  change [u mod 256; u / 256 mod 256] with (le_bytes 2 u).
  rewrite le_value_le_bytes. apply Z.mod_small.
  unfold is_wchar_t in Hu. apply andb_true_iff in Hu as [H0 H1].
  apply Z.leb_le in H0. apply Z.ltb_lt in H1. lia.
Qed.

Section FurtherSetters.
Context {Σ : Type} (answer : call -> Σ -> response * Σ).

(** X6.  What [set_dword_value] and [set_qword_value] write is the value in
    little-endian byte order: 4, respectively 8, octets from which a reader
    gets the value back. *)
Theorem integer_payload_round_trip (this : Key) (valueName : wstring)
    (w : world Σ) :
  (forall val, 0 <= val < 2 ^ 32 ->
     exists c,
       writes_once answer c w (Key_set_dword_value answer this valueName val w)
       /\ size (payload c) = 4
       /\ forallb is_BYTE (payload c) = true
       /\ le_value (payload c) = val)
  /\ (forall val, 0 <= val < 2 ^ 64 ->
        exists c,
          writes_once answer c w
            (Key_set_qword_value answer this valueName val w)
          /\ size (payload c) = 8
          /\ forallb is_BYTE (payload c) = true
          /\ le_value (payload c) = val).
Proof.
  split; intros val Hval; eexists; (split; [apply set_value_run|]).
  - split; [done|]. split; [apply (le_bytes_octets 4)|].
    change (le_value (le_bytes 4 val) = val).
    rewrite le_value_le_bytes. by apply Z.mod_small.
  - split; [done|]. split; [apply (le_bytes_octets 8)|].
    change (le_value (le_bytes 8 val) = val).
    rewrite le_value_le_bytes. by apply Z.mod_small.
Qed.

Lemma text_payload (val : list Z) :
  (size val + 1) * sizeof_wchar_t < 2 ^ 32 ->
  take (Z.to_nat (to_DWORD (to_size_t ((size val + 1) * sizeof_wchar_t))))
       (c_str_bytes val)
  = wchar_bytes (val ++ [NUL]).
Proof.
  intros Hfit. rewrite (string_size_fits val Hfit). apply take_ge.
  pose proof (c_str_bytes_length val) as Hlen.
  change (c_str_bytes val) with (wchar_bytes (val ++ [NUL])) in Hlen.
  unfold size, sizeof_wchar_t in *. lia.
Qed.

(** X7.  From what [set_string_value] and [set_expanded_string_value] write, a
    reader of 16-bit units gets the text back, followed by one NUL; the
    text is what was passed, placeholders and all. *)
Theorem text_payload_round_trip (this : Key) (valueName val : wstring)
    (w : world Σ) :
  forallb is_wchar_t val = true ->
  (size val + 1) * sizeof_wchar_t < 2 ^ 32 ->
  exists c c',
    writes_once answer c w (Key_set_string_value answer this valueName val w)
    /\ writes_once answer c' w
         (Key_set_expanded_string_value answer this valueName val w)
    /\ wchar_units (payload c) = val ++ [NUL]
    /\ wchar_units (payload c') = val ++ [NUL].
Proof.
  intros Hval Hfit. eexists _, _.
  split; [apply set_value_run|]. split; [apply set_value_run|].
  assert (Hunits : forallb is_wchar_t (val ++ [NUL]) = true).
  { rewrite forallb_app, Hval. done. }
  unfold payload. rewrite (text_payload val Hfit).
  split; by apply wchar_units_bytes.
Qed.

(** X8.  [set_multistring_value] on a non-empty list whose encoding can be
    counted in a [DWORD] of bytes: one [RegSetValueExW] call of type
    [REG_MULTI_SZ], and nothing else, that passes the whole encoding, two
    bytes per code unit: each string and its NUL, in order, and the final
    NUL. *)
Theorem set_multistring_value_writes_wire (this : Key) (valueName : wstring)
    (val : list wstring) (w : world Σ) :
  val <> [] ->
  size (multistring_wire val) * sizeof_wchar_t < 2 ^ 32 ->
  let c := RegSetValueExW (Key_get this) valueName 0 REG_MULTI_SZ
             (wchar_bytes (multistring_wire val))
             (size (multistring_wire val) * sizeof_wchar_t) in
  writes_once answer c w
    (Key_set_multistring_value answer this valueName val w)
  /\ payload c = wchar_bytes (multistring_wire val)
  /\ (forallb (forallb is_wchar_t) val = true ->
      wchar_units (payload c) = multistring_wire val).
Proof.
  intros Hne Hfit c.
  assert (Hp : payload c = wchar_bytes (multistring_wire val)).
  { unfold c, payload. apply take_ge. rewrite wchar_bytes_length.
    unfold size, sizeof_wchar_t. lia. }
  split.
  - unfold Key_set_multistring_value.
    rewrite (build_multistring_is_wire val Hne).
    assert (Hsz : to_DWORD (to_size_t (size (multistring_wire val)
                                       * sizeof_wchar_t))
                  = size (multistring_wire val) * sizeof_wchar_t).
    { unfold to_size_t, size, sizeof_wchar_t in *.
      rewrite (Z.mod_small _ (2 ^ 64)) by lia. apply to_DWORD_small. lia. }
    rewrite Hsz. apply set_value_run.
  - split; [done|]. intros Hunits. rewrite Hp.
    apply wchar_units_bytes. unfold multistring_wire.
    rewrite forallb_app, andb_true_r.
    clear -Hunits. induction val as [|s val IH]; [done|].
    cbn [forallb] in Hunits. apply andb_true_iff in Hunits as [Hs Hval].
    cbn [map concat]. rewrite !forallb_app, Hs, (IH Hval). done.
Qed.

(** X9.  [set_multistring_value] on the empty list: the one call it issues
    passes no byte at all, so the value is stored without any
    terminator. *)
Theorem set_multistring_value_empty (this : Key) (valueName : wstring)
    (w : world Σ) :
  let c := RegSetValueExW (Key_get this) valueName 0 REG_MULTI_SZ [] 0 in
  writes_once answer c w
    (Key_set_multistring_value answer this valueName [] w)
  /\ payload c = [].
Proof.
  intros c. split; [|done]. apply set_value_run.
Qed.

(** X10.  The three delete operations: each issues exactly one call, on the
    key's own handle, and fails exactly when that call does;
    [delete_key] passes the caller's access and [delete_tree] leaves the
    recursion to the one [RegDeleteTreeW] call. *)
Theorem deleters_call_once (this : Key) (name : wstring) (w : world Σ) :
  writes_once answer (RegDeleteValueW (Key_get this) name) w
    (Key_delete_value answer this name w)
  /\ (forall desiredAccess,
        writes_once answer
          (RegDeleteKeyExW (Key_get this) name desiredAccess 0) w
          (Key_delete_key answer this name desiredAccess w))
  /\ writes_once answer (RegDeleteTreeW (Key_get this) name) w
       (Key_delete_tree answer this name w).
Proof.
  split; [apply set_value_run|]. split; [|apply set_value_run].
  intros desiredAccess. apply set_value_run.
Qed.

End FurtherSetters.

(** * Further results about the enumerators *)

Section FurtherEnumerators.
Context {Σ : Type} (answer : call -> Σ -> response * Σ).

Lemma only_read_refl (hKey : Z) (w w' : world Σ) :
  calls w' = calls w -> registry w' = registry w ->
  only_read answer hKey w w'.
Proof.
  intros Hc Hr. exists []. rewrite app_nil_r. split; [done|].
  split; [constructor|]. intros _. split; [done|constructor].
Qed.

Lemma only_read_trans (hKey : Z) (w1 w2 w3 : world Σ) :
  only_read answer hKey w1 w2 -> only_read answer hKey w2 w3 ->
  only_read answer hKey w1 w3.
Proof.
  intros (n12 & Hc12 & Hr12 & H12) (n23 & Hc23 & Hr23 & H23).
  exists (n12 ++ n23). rewrite Hc23, Hc12, <- app_assoc. split; [done|].
  split; [by apply Forall_app|]. intros Hun.
  destruct (H12 Hun) as [Hreg12 Hf12]. rewrite Hreg12 in H23.
  destruct (H23 Hun) as [Hreg23 Hf23].
  split; [by rewrite Hreg23|]. by apply Forall_app.
Qed.

Lemma only_read_called (hKey : Z) (c : call) (w : world Σ) :
  reads hKey c = true -> only_read answer hKey w (called answer c w).
Proof.
  intros Hc. exists [(c, reply_to answer c w)]. split; [done|].
  split; [by constructor|]. intros Hun. split.
  - unfold called; cbn [registry]. by apply Hun.
  - by constructor.
Qed.

Lemma for_loop_only_read {A} (hKey : Z) (body : Z -> A -> M Σ A) :
  (forall i acc w, only_read answer hKey w (body i acc w).2) ->
  forall n i acc w, only_read answer hKey w (for_loop n i body acc w).2.
Proof.
  intros Hbody. induction n as [|n IH]; intros i acc w.
  - by apply only_read_refl.
  - rewrite for_loop_S. specialize (Hbody i acc w).
    destruct (body i acc w) as [[acc'|e] w1]; cbn [snd] in *; [|done].
    eapply only_read_trans; [exact Hbody|apply IH].
Qed.

Lemma enum_names_only_read (hKey : Z) (Q : call)
    (count longest : key_info -> Z) (mk : positive -> Z -> Z -> call)
    (w : world Σ) :
  reads hKey Q = true ->
  (forall buf cap i, reads hKey (mk buf cap i) = true) ->
  only_read answer hKey w (enum_names answer Q count longest mk w).2.
Proof.
  intros HQ Hmk. unfold enum_names, bind. rewrite THROW_IF_WIN32_ERROR_run.
  pose proof (only_read_called hKey Q w HQ) as H1.
  destruct (status _ =? _); cbn [snd]; [|done].
  unfold make_unique.
  match goal with
  | |- context [for_loop ?n ?i ?b ?a ?x] =>
      assert (Hloop : only_read answer hKey x (for_loop n i b a x).2);
      [|destruct (for_loop n i b a x) as [[[ret_ exn]|e] w3]]
  end.
  { apply for_loop_only_read. intros i acc w0.
    rewrite sweep_names_body_run.
    destruct (status _ =? _); cbn [snd]; by apply only_read_called. }
  - cbn [snd] in Hloop. unfold unique_ptr_destroy.
    eapply only_read_trans; [exact H1|].
    eapply only_read_trans; [by apply only_read_refl|].
    eapply only_read_trans; [exact Hloop|].
    destruct exn; by apply only_read_refl.
  - cbn [snd] in *.
    eapply only_read_trans; [exact H1|].
    eapply only_read_trans; [by apply only_read_refl|]. exact Hloop.
Qed.

Lemma reads_own (hKey : Z) : (hKey =? hKey) = true.
Proof. apply Z.eqb_refl. Qed.

Lemma Key_enum_subkeys_only_read (this : Key) (w : world Σ) :
  only_read answer (Key_get this) w (Key_enum_subkeys answer this w).2.
Proof.
  rewrite Key_enum_subkeys_shape.
  apply enum_names_only_read; intros; apply reads_own.
Qed.

Lemma Key_enum_value_names_only_read (this : Key) (w : world Σ) :
  only_read answer (Key_get this) w (Key_enum_value_names answer this w).2.
Proof.
  rewrite Key_enum_value_names_shape.
  apply enum_names_only_read; intros; apply reads_own.
Qed.

Lemma Key_enum_values_only_read (this : Key) (w : world Σ) :
  only_read answer (Key_get this) w (Key_enum_values answer this w).2.
Proof.
  unfold Key_enum_values, bind. rewrite THROW_IF_WIN32_ERROR_run.
  pose proof (only_read_called (Key_get this)
                (RegQueryInfoKeyW (Key_get this) request_values) w
                (reads_own _)) as H1.
  destruct (status _ =? _); cbn [snd]; [|done].
  unfold make_unique. cbn [heap calls registry allocations].
  match goal with
  | |- context [for_loop ?n ?i ?b ?a ?x] =>
      assert (Hloop : only_read answer (Key_get this) x
                        (for_loop n i b a x).2);
      [|destruct (for_loop n i b a x) as [[[ret_ exn]|e] w3]]
  end.
  { apply for_loop_only_read. intros i acc w0.
    unfold enum_values_body, bind. rewrite THROW_IF_WIN32_ERROR_run.
    destruct (status _ =? _); cbn [snd];
      [|by apply only_read_called, reads_own].
    match goal with
    | |- context [called answer ?c w0] =>
        apply (only_read_trans _ _ (called answer c w0));
        [apply only_read_called, reads_own|by apply only_read_refl]
    end. }
  - cbn [snd] in Hloop. unfold unique_ptr_destroy.
    eapply only_read_trans; [exact H1|].
    eapply only_read_trans; [by apply only_read_refl|].
    eapply only_read_trans; [exact Hloop|].
    destruct exn as [e|]; [|by apply only_read_refl].
    match goal with
    | |- context [destroy_values ret_ ?x] =>
        destruct (destroy_values_run ret_ x)
          as (w'' & Hrun' & Hc' & _ & Hr' & _)
    end.
    rewrite Hrun'. cbn [snd]. by apply only_read_refl.
  - cbn [snd] in *.
    eapply only_read_trans; [exact H1|].
    eapply only_read_trans; [by apply only_read_refl|]. exact Hloop.
Qed.

(** X11.  The three enumerators do nothing to the registry but read the key's
    own handle, with [RegQueryInfoKeyW], [RegEnumKeyExW] and
    [RegEnumValueW]; on a registry that reading does not change they
    leave the registry as they found it, on every path. *)
Theorem enumerators_only_read (this : Key) (w : world Σ) :
  only_read answer (Key_get this) w (Key_enum_subkeys answer this w).2
  /\ only_read answer (Key_get this) w (Key_enum_values answer this w).2
  /\ only_read answer (Key_get this) w
       (Key_enum_value_names answer this w).2.
Proof.
  split; [apply Key_enum_subkeys_only_read|].
  split; [apply Key_enum_values_only_read|].
  apply Key_enum_value_names_only_read.
Qed.


Lemma Key_enum_subkeys_run (this : Key) (w : world Σ) :
  let Q := RegQueryInfoKeyW (Key_get this) request_subkeys in
  let q := reply_to answer Q w in
  let cap := to_DWORD (to_DWORD (cbMaxSubKeyLen (info q)) + 1) in
  let buf := fresh (dom (heap w)) in
  exists r w' new,
    Key_enum_subkeys answer this w = (r, w')
    /\ calls w' = calls w ++ (Q, q) :: new
    /\ heap w' = heap w
    /\ if status q =? ERROR_SUCCESS then
         exists done names exn,
           r = match exn with None => Ok names | Some e => Err e end
           /\ allocations w' = allocations w ++ [(buf, cap)]
           /\ sweep_calls new exn done
           /\ new.*1
              = (fun i => RegEnumKeyExW (Key_get this) i buf cap)
                <$> seqZ 0 (Z.of_nat (length new))
           /\ (exn = None ->
               length new = Z.to_nat (to_DWORD (cSubKeys (info q))))
           /\ (length new <= Z.to_nat (to_DWORD (cSubKeys (info q))))%nat
           /\ Forall2 (fun s ev => size (item_name ev.2) < cap ->
                                   s = item_name ev.2) names done
       else r = Err (status q) /\ new = []
            /\ allocations w' = allocations w.
Proof.
  rewrite Key_enum_subkeys_shape.
  apply (enum_names_spec answer _ cSubKeys cbMaxSubKeyLen
           (fun buf cap i => RegEnumKeyExW (Key_get this) i buf cap)).
  - apply query_writes_nothing.
  - intros buf cap i r h Hst. unfold out_writes. by rewrite Hst.
  - intros buf cap i r h Hst. unfold out_writes.
    apply Z.eqb_neq in Hst. by rewrite Hst.
Qed.

Lemma Key_enum_value_names_run (this : Key) (w : world Σ) :
  let Q := RegQueryInfoKeyW (Key_get this) request_value_names in
  let q := reply_to answer Q w in
  let cap := to_DWORD (to_DWORD (cbMaxValueNameLen (info q)) + 1) in
  let buf := fresh (dom (heap w)) in
  exists r w' new,
    Key_enum_value_names answer this w = (r, w')
    /\ calls w' = calls w ++ (Q, q) :: new
    /\ heap w' = heap w
    /\ if status q =? ERROR_SUCCESS then
         exists done names exn,
           r = match exn with None => Ok names | Some e => Err e end
           /\ allocations w' = allocations w ++ [(buf, cap)]
           /\ sweep_calls new exn done
           /\ new.*1
              = (fun i => RegEnumValueW (Key_get this) i buf cap
                                        false None None)
                <$> seqZ 0 (Z.of_nat (length new))
           /\ (exn = None ->
               length new = Z.to_nat (to_DWORD (cValues (info q))))
           /\ (length new <= Z.to_nat (to_DWORD (cValues (info q))))%nat
           /\ Forall2 (fun s ev => size (item_name ev.2) < cap ->
                                   s = item_name ev.2) names done
       else r = Err (status q) /\ new = []
            /\ allocations w' = allocations w.
Proof.
  rewrite Key_enum_value_names_shape.
  apply (enum_names_spec answer _ cValues cbMaxValueNameLen
           (fun buf cap i =>
              RegEnumValueW (Key_get this) i buf cap false None None)).
  - apply query_writes_nothing.
  - intros buf cap i. apply value_names_writes.
  - intros buf cap i. apply value_names_keeps.
Qed.

(** X12.  [enum_subkeys] and [enum_value_names] leave the heap exactly as they
    found it, whether they return or throw: the one buffer they allocate
    is freed on every path and no other block is touched. *)
Theorem name_enumerators_restore_heap (this : Key) (w : world Σ) :
  heap (Key_enum_subkeys answer this w).2 = heap w
  /\ heap (Key_enum_value_names answer this w).2 = heap w.
Proof.
  split.
  - destruct (Key_enum_subkeys_run this w) as (r & w' & new & -> & _ & H & _).
    exact H.
  - destruct (Key_enum_value_names_run this w)
      as (r & w' & new & -> & _ & H & _).
    exact H.
Qed.

Lemma empty_sweep (new done : list (call * response)) (exn : option Z) :
  sweep_calls new exn done -> (length new <= 0)%nat ->
  exn = None /\ done = [].
Proof.
  intros [_ Hex] Hle. destruct exn as [e|].
  - destruct Hex as (last & -> & _). rewrite length_app in Hle.
    cbn in Hle. lia.
  - subst new. split; [done|]. destruct done; [done|]. cbn in Hle. lia.
Qed.

(** X13.  A key that reports no item: when the size query succeeds with a
    count of 0, each enumerator returns the empty collection after this
    one call, with the heap as it found it. *)
Theorem enumerate_empty_key (this : Key) (w : world Σ) :
  (let Q := RegQueryInfoKeyW (Key_get this) request_subkeys in
   let q := reply_to answer Q w in
   status q = ERROR_SUCCESS -> cSubKeys (info q) = 0 ->
   exists w', Key_enum_subkeys answer this w = (Ok [], w')
              /\ calls w' = calls w ++ [(Q, q)] /\ heap w' = heap w)
  /\ (let Q := RegQueryInfoKeyW (Key_get this) request_values in
      let q := reply_to answer Q w in
      status q = ERROR_SUCCESS -> cValues (info q) = 0 ->
      exists w', Key_enum_values answer this w = (Ok [], w')
                 /\ calls w' = calls w ++ [(Q, q)] /\ heap w' = heap w)
  /\ (let Q := RegQueryInfoKeyW (Key_get this) request_value_names in
      let q := reply_to answer Q w in
      status q = ERROR_SUCCESS -> cValues (info q) = 0 ->
      exists w', Key_enum_value_names answer this w = (Ok [], w')
                 /\ calls w' = calls w ++ [(Q, q)] /\ heap w' = heap w).
Proof.
  split; [|split]; intros Q q Hst Hzero.
  - destruct (Key_enum_subkeys_run this w)
      as (r & w' & new & Hrun & Hcalls & Hheap & Hq).
    fold Q q in Hq, Hcalls. rewrite Hst, Hzero in Hq.
    destruct Hq as (done & names & exn & Hr & _ & Hsw & _ & _ & Hle & Hread).
    destruct (empty_sweep _ _ _ Hsw Hle) as [-> ->].
    destruct Hsw as [_ ->]. apply Forall2_nil_inv_r in Hread as ->.
    exists w'. by rewrite Hrun, Hr.
  - destruct (Key_enum_values_spec answer this w)
      as (r & w' & new & Hrun & Hcalls & Hq).
    fold Q q in Hq, Hcalls. rewrite Hst, Hzero in Hq.
    destruct Hq as (nameBuf & valBuf & done & vals & exn & _ & _ & _ & Hr
                    & _ & Hsw & _ & _ & Hle & _ & _ & Hlen & Hheap).
    destruct (empty_sweep _ _ _ Hsw Hle) as [-> ->].
    destruct Hsw as [_ ->]. destruct vals; [|done].
    destruct Hheap as [Hframe _].
    exists w'. rewrite Hrun, Hr. split; [done|]. split; [done|].
    apply map_eq; intros p. apply Hframe. apply not_elem_of_nil.
  - destruct (Key_enum_value_names_run this w)
      as (r & w' & new & Hrun & Hcalls & Hheap & Hq).
    fold Q q in Hq, Hcalls. rewrite Hst, Hzero in Hq.
    destruct Hq as (done & names & exn & Hr & _ & Hsw & _ & _ & Hle & Hread).
    destruct (empty_sweep _ _ _ Hsw Hle) as [-> ->].
    destruct Hsw as [_ ->]. apply Forall2_nil_inv_r in Hread as ->.
    exists w'. by rewrite Hrun, Hr.
Qed.


Lemma sweep_event (mk : Z -> call) (new : list (call * response)) (k : nat)
    (ev : call * response) :
  new.*1 = mk <$> seqZ 0 (Z.of_nat (length new)) ->
  new !! k = Some ev -> ev.1 = mk (Z.of_nat k).
Proof.
  intros Hnew Hk. pose proof (lookup_lt_Some _ _ _ Hk) as Hlt.
  apply (f_equal (fun l => l !! k)) in Hnew.
  rewrite !list_lookup_fmap, Hk in Hnew.
  rewrite lookup_seqZ_lt in Hnew by lia. cbn in Hnew.
  by injection Hnew.
Qed.

Lemma sweep_all_succeeded (new done : list (call * response))
    (exn : option Z) :
  sweep_calls new exn done -> Forall succeeded new ->
  exn = None /\ new = done.
Proof.
  intros [_ Hex] Hall. destruct exn as [e|]; [|done].
  destruct Hex as (last & -> & He & Hne).
  apply Forall_app in Hall as [_ Hlast].
  apply (proj1 (Forall_singleton _ _)) in Hlast. unfold succeeded in Hlast.
  rewrite He in Hlast. done.
Qed.

Section ListedNames.
Variables (hKey : Z) (Q : call) (count longest : key_info -> Z)
          (mk : positive -> Z -> Z -> call).
Hypothesis Q_writes_nothing : forall r h, out_writes Q r h = h.
Hypothesis mk_writes : forall buf cap i r h,
  status r = ERROR_SUCCESS ->
  out_writes (mk buf cap i) r h
  = alter (buf_store (item_name r ++ [NUL])) buf h.
Hypothesis mk_keeps : forall buf cap i r h,
  status r <> ERROR_SUCCESS -> out_writes (mk buf cap i) r h = h.
Hypothesis Q_reads : reads hKey Q = true.
Hypothesis mk_reads : forall buf cap i, reads hKey (mk buf cap i) = true.
Hypothesis Q_contract : forall q,
  status q = ERROR_SUCCESS -> api_contract (Q, q) = true ->
  0 <= count (info q) < 2 ^ 32 /\ 0 <= longest (info q) < 2 ^ 32 - 1.

Lemma enum_names_listed (w : world Σ) (names : list (list Z)) :
  lists_names answer hKey Q count longest mk (registry w) names ->
  exists w',
    enum_names answer Q count longest mk w = (Ok names, w')
    /\ registry w' = registry w /\ heap w' = heap w
    /\ length (calls w') = (length (calls w) + 1 + length names)%nat.
Proof.
  intros (Hun & Hst & Hapi & Hcount & Hfit & Hitem).
  destruct (enum_names_spec answer Q count longest mk Q_writes_nothing
              mk_writes mk_keeps w)
    as (r & w' & new & Hrun & Hcalls & Hheap & Hq).
  destruct (enum_names_only_read hKey Q count longest mk w Q_reads mk_reads)
    as (new' & Hcalls' & _ & Hfaith).
  rewrite Hrun in Hcalls', Hfaith. cbn [snd] in Hcalls', Hfaith.
  rewrite Hcalls in Hcalls'. apply app_inv_head in Hcalls'. subst new'.
  destruct (Hfaith Hun) as [Hreg Hans].
  apply Forall_cons in Hans as [_ Hans].
  unfold reply_to in Hq, Hcalls.
  set (q := (answer Q (registry w)).1) in *.
  destruct (Q_contract q Hst Hapi) as [Hc Hl].
  rewrite Hst in Hq. change (ERROR_SUCCESS =? ERROR_SUCCESS) with true in Hq.
  rewrite (to_DWORD_small (longest (info q))) in Hq by lia.
  rewrite (to_DWORD_small (longest (info q) + 1)) in Hq by lia.
  rewrite (to_DWORD_small (count (info q))) in Hq by lia.
  destruct Hq as (done & names' & exn & Hr & Hal & Hsw & Hnew & Hnone & Hle
                  & Hread).
  rewrite Hcount in Hnone, Hle. unfold size in Hnone, Hle.
  rewrite Nat2Z.id in Hnone, Hle.
  assert (Hev : forall k ev, new !! k = Some ev ->
                  exists name, names !! k = Some name
                               /\ status ev.2 = ERROR_SUCCESS
                               /\ item_name ev.2 = name).
  { intros k ev Hk. pose proof (lookup_lt_Some _ _ _ Hk) as Hlt.
    pose proof (sweep_event _ _ _ _ Hnew Hk) as Hc1.
    destruct (lookup_lt_is_Some_2 names k) as [name Hname]; [lia|].
    exists name. split; [done|].
    rewrite Forall_forall in Hans.
    rewrite (Hans ev (list_elem_of_lookup_2 _ _ _ Hk)), Hc1.
    by apply Hitem. }
  assert (Hall : Forall succeeded new).
  { apply Forall_lookup. intros k ev Hk.
    by destruct (Hev k ev Hk) as (name & _ & Hs & _). }
  destruct (sweep_all_succeeded _ _ _ Hsw Hall) as [-> <-].
  specialize (Hnone eq_refl). subst r.
  assert (Heq : names' = names).
  { pose proof (Forall2_length _ _ _ Hread) as Hlen.
    apply (list_eq_same_length _ _ (length names)); [done|lia|].
    intros i x y Hi Hx Hy.
    destruct (Forall2_lookup_l _ _ _ _ _ Hread Hx) as (ev & Hk & Hxy).
    destruct (Hev i ev Hk) as (name & Hname & _ & Hn).
    rewrite Hy in Hname. injection Hname as <-.
    rewrite Hxy; [done|]. rewrite Hn.
    rewrite Forall_forall in Hfit.
    specialize (Hfit y (list_elem_of_lookup_2 _ _ _ Hy)). cbn in Hfit. lia. }
  subst names'. exists w'. split; [done|]. split; [done|]. split; [done|].
  rewrite Hcalls, length_app, length_cons, Hnone. lia.
Qed.
End ListedNames.

Lemma query_contract (hKey : Z) (req : info_request) (q : response) :
  status q = ERROR_SUCCESS ->
  api_contract (RegQueryInfoKeyW hKey req, q) = true ->
  (lpcSubKeys req = true -> 0 <= cSubKeys (info q) < 2 ^ 32)
  /\ (lpcbMaxSubKeyLen req = true ->
      0 <= cbMaxSubKeyLen (info q) < 2 ^ 32 - 1)
  /\ (lpcValues req = true -> 0 <= cValues (info q) < 2 ^ 32)
  /\ (lpcbMaxValueNameLen req = true ->
      0 <= cbMaxValueNameLen (info q) < 2 ^ 32 - 1)
  /\ (lpcbMaxValueLen req = true -> 0 <= cbMaxValueLen (info q) < 2 ^ 32).
Proof.
  intros Hst Hapi. exact (api_contract_success _ _ Hst Hapi).
Qed.

(** X14.  On a registry that reading does not change and that lists the subkeys
    [names] of the key, [enum_subkeys] returns exactly [names], in order,
    after the size query and one call per name; the registry and the heap
    are as before.  The names may get shorter down the list: what an
    earlier, longer name left in the buffer does not show. *)
Theorem enum_subkeys_complete (this : Key) (w : world Σ)
    (names : list wstring) :
  holds_subkeys answer (Key_get this) (registry w) names ->
  exists w',
    Key_enum_subkeys answer this w = (Ok names, w')
    /\ registry w' = registry w /\ heap w' = heap w
    /\ length (calls w') = (length (calls w) + 1 + length names)%nat.
Proof.
  intros Hholds. rewrite Key_enum_subkeys_shape.
  apply (enum_names_listed (Key_get this)); try done.
  - apply query_writes_nothing.
  - intros buf cap i r h Hst. unfold out_writes. by rewrite Hst.
  - intros buf cap i r h Hst. unfold out_writes.
    apply Z.eqb_neq in Hst. by rewrite Hst.
  - apply reads_own.
  - intros. apply reads_own.
  - intros q Hst Hapi.
    destruct (query_contract _ _ _ Hst Hapi) as (H1 & H2 & _).
    split; [by apply H1|by apply H2].
Qed.

(** X15.  On a registry that reading does not change and that lists the
    names [names] of the values of the key, [enum_value_names] returns
    exactly [names], in order, after the size query and one call per name;
    the registry and the heap are as before. *)
Theorem enum_value_names_complete (this : Key) (w : world Σ)
    (names : list wstring) :
  holds_value_names answer (Key_get this) (registry w) names ->
  exists w',
    Key_enum_value_names answer this w = (Ok names, w')
    /\ registry w' = registry w /\ heap w' = heap w
    /\ length (calls w') = (length (calls w) + 1 + length names)%nat.
Proof.
  intros Hholds. rewrite Key_enum_value_names_shape.
  apply (enum_names_listed (Key_get this)); try done.
  - apply query_writes_nothing.
  - intros buf cap i. apply value_names_writes.
  - intros buf cap i. apply value_names_keeps.
  - apply reads_own.
  - intros. apply reads_own.
  - intros q Hst Hapi.
    destruct (query_contract _ _ _ Hst Hapi) as (_ & _ & H1 & H2 & _).
    split; [by apply H1|by apply H2].
Qed.


(** X16.  On a registry that reading does not change and that lists the values
    [items] of the key, [enum_values] returns one entry per value, in
    order: its name, its type, its byte length and a block that holds its
    bytes, however long the values enumerated before it were; the registry
    is as before. *)
Theorem enum_values_complete (this : Key) (w : world Σ)
    (items : list (wstring * (DWORD * list BYTE))) :
  holds_values answer (Key_get this) (registry w) items ->
  exists vals w',
    Key_enum_values answer this w = (Ok vals, w')
    /\ registry w' = registry w
    /\ Forall2 (value_is (heap w')) vals items
    /\ length (calls w') = (length (calls w) + 1 + length items)%nat.
Proof.
  intros (Hun & Hst & Hapi & Hcount & Hfit & Hitem).
  destruct (Key_enum_values_spec answer this w)
    as (r & w' & new & Hrun & Hcalls & Hq).
  destruct (Key_enum_values_only_read this w)
    as (new' & Hcalls' & _ & Hfaith).
  rewrite Hrun in Hcalls', Hfaith. cbn [snd] in Hcalls', Hfaith.
  rewrite Hcalls in Hcalls'. apply app_inv_head in Hcalls'. subst new'.
  destruct (Hfaith Hun) as [Hreg Hans].
  apply Forall_cons in Hans as [_ Hans].
  unfold reply_to in Hq, Hcalls.
  set (Q := RegQueryInfoKeyW (Key_get this) request_values) in *.
  set (q := (answer Q (registry w)).1) in *.
  destruct (query_contract _ _ _ Hst Hapi) as (_ & _ & Hc & Hn & Hv).
  specialize (Hc eq_refl). specialize (Hn eq_refl). specialize (Hv eq_refl).
  rewrite Hst in Hq. change (ERROR_SUCCESS =? ERROR_SUCCESS) with true in Hq.
  rewrite (to_DWORD_small (cbMaxValueNameLen (info q))) in Hq by lia.
  rewrite (to_DWORD_small (cbMaxValueNameLen (info q) + 1)) in Hq by lia.
  rewrite (to_DWORD_small (cbMaxValueLen (info q))) in Hq by lia.
  rewrite (to_DWORD_small (cValues (info q))) in Hq by lia.
  destruct Hq as (nameBuf & valBuf & done & vals & exn & _ & _ & _ & Hr & _
                  & Hsw & Hnew & Hnone & Hle & _ & _ & Hlen & Hheap).
  rewrite Hcount in Hnone, Hle. unfold size in Hnone, Hle.
  rewrite Nat2Z.id in Hnone, Hle.
  assert (Hev : forall k ev, new !! k = Some ev ->
                  exists it, items !! k = Some it
                             /\ status ev.2 = ERROR_SUCCESS
                             /\ item_name ev.2 = it.1
                             /\ item_type ev.2 = it.2.1
                             /\ item_data ev.2 = it.2.2).
  { intros k ev Hk. pose proof (lookup_lt_Some _ _ _ Hk) as Hlt.
    pose proof (sweep_event _ _ _ _ Hnew Hk) as Hc1.
    destruct (lookup_lt_is_Some_2 items k) as [it Hit]; [lia|].
    exists it. split; [done|].
    rewrite Forall_forall in Hans.
    rewrite (Hans ev (list_elem_of_lookup_2 _ _ _ Hk)), Hc1.
    by apply Hitem. }
  assert (Hall : Forall succeeded new).
  { apply Forall_lookup. intros k ev Hk.
    by destruct (Hev k ev Hk) as (it & _ & Hs & _). }
  destruct (sweep_all_succeeded _ _ _ Hsw Hall) as [-> <-].
  specialize (Hnone eq_refl). subst r. destruct Hheap as [_ Hread].
  exists vals, w'. split; [done|]. split; [done|]. split.
  - apply Forall2_same_length_lookup_2; [lia|].
    intros i nv it Hnv Hit.
    destruct (Forall2_lookup_l _ _ _ _ _ Hread Hnv)
      as (ev & Hk & Hl & Ht & _ & Hname & Hbytes).
    destruct (Hev i ev Hk) as (it' & Hit' & _ & Hn1 & Ht1 & Hd1).
    rewrite Hit in Hit'. injection Hit' as <-.
    rewrite Forall_forall in Hfit.
    destruct (Hfit it (list_elem_of_lookup_2 _ _ _ Hit)) as (Hf1 & Hf2 & Hf3).
    unfold is_DWORD in Hf3. apply andb_true_iff in Hf3 as [Hf3 Hf4].
    apply Z.leb_le in Hf3. apply Z.ltb_lt in Hf4.
    rewrite Hn1 in Hname. rewrite Ht1 in Ht. rewrite Hd1 in Hl, Hbytes.
    unfold value_is. split; [apply Hname; lia|].
    split; [rewrite Ht; apply to_DWORD_small; lia|].
    split; [rewrite Hl; apply to_DWORD_small; unfold size in *; lia|].
    by apply Hbytes.
  - rewrite Hcalls, length_app, length_cons, Hnone. lia.
Qed.

End FurtherEnumerators.

(** * Further results about [Key::open] *)

(** X18.  [open] issues one [RegOpenKeyExW] call, with the options 0 and the
    caller's access, and nothing else: no block is allocated and the
    create-or-open call is never issued.  It throws the status of a failed
    call, [ERROR_FILE_NOT_FOUND] for a key that the registry reports as
    absent; otherwise the [Key] holds the handle that the registry handed
    back, a valid one when the answer keeps to the contract. *)
Theorem open_existing_only {Σ} (answer : call -> Σ -> response * Σ)
    (this : Key) (hKeyParent : HKEY) (subKey : wstring)
    (desiredAccess : REGSAM) (w : world Σ) :
  let c := RegOpenKeyExW hKeyParent subKey 0 desiredAccess in
  let r := reply_to answer c w in
  let run := Key_open answer this hKeyParent subKey desiredAccess w in
  run.2 = called answer c w
  /\ heap run.2 = heap w /\ allocations run.2 = allocations w
  /\ (status r = ERROR_FILE_NOT_FOUND -> run.1 = Err ERROR_FILE_NOT_FOUND)
  /\ (forall e, run.1 = Err e <-> status r = e /\ e <> ERROR_SUCCESS)
  /\ (forall key, run.1 = Ok key ->
        status r = ERROR_SUCCESS /\ Key_get key = phkResult r
        /\ (api_contract (c, r) = true -> Key_is_valid key = true)).
Proof.
  intros c r run. unfold run. rewrite Key_open_run.
  change (RegOpenKeyExW hKeyParent subKey REG_NONE desiredAccess) with c.
  fold r. cbn [fst snd].
  split; [done|]. split.
  { unfold called, out_writes; cbn [heap].
    by destruct (status (reply_to answer c w) =? ERROR_SUCCESS). }
  split; [done|]. split.
  { intros ->. done. }
  destruct (status r =? ERROR_SUCCESS) eqn:Hst.
  - apply Z.eqb_eq in Hst. split.
    + intros e. split; [done|]. intros [<- Hne]. done.
    + intros key [= <-]. split; [done|]. split; [done|].
      intros Hapi. unfold Key_is_valid. cbn [m_hKey].
      pose proof (api_contract_success c r Hst Hapi) as Hh. cbn in Hh.
      apply negb_true_iff, Z.eqb_neq. exact Hh.
  - apply Z.eqb_neq in Hst. split; [|done].
    intros e. split.
    + intros [= <-]. done.
    + intros [<- _]. done.
Qed.

Lemma open_existing_only_witness :
  (Key_open sim.answer Key_default 1 [90] default_desiredAccess
            (initial_world sim.sample)).1
  = Err ERROR_FILE_NOT_FOUND.
Proof.
  destruct (open_existing_only sim.answer Key_default 1 [90]
              default_desiredAccess (initial_world sim.sample))
    as (_ & _ & _ & Habsent & _).
  apply Habsent. reflexivity.
Defined.

(** * Results about [oleutils::clsid_to_wstring] *)

Lemma c_string_terminated (s rest : list Z) :
  no_NUL s = true -> oleutils.c_string (s ++ NUL :: rest) = s.
Proof.
  unfold no_NUL. induction s as [|c s IH]; [done|].
  cbn [forallb app oleutils.c_string]. intros H.
  apply andb_true_iff in H as [Hc Hs].
  apply negb_true_iff in Hc. rewrite Hc. f_equal. by apply IH.
Qed.

Lemma c_string_no_NUL (block : list Z) :
  no_NUL (oleutils.c_string block) = true.
Proof.
  induction block as [|c block IH]; [done|]. cbn [oleutils.c_string].
  destruct (c =? NUL) eqn:Hc; [done|].
  unfold no_NUL in *. cbn [forallb]. by rewrite Hc, IH.
Qed.

Lemma c_string_split (block : list Z) :
  existsb (fun c => c =? NUL) block = true ->
  exists rest, block = oleutils.c_string block ++ NUL :: rest.
Proof.
  induction block as [|c block IH]; [done|].
  cbn [existsb oleutils.c_string]. destruct (c =? NUL) eqn:Hc.
  - intros _. apply Z.eqb_eq in Hc as ->. by exists block.
  - cbn [orb]. intros H. destruct (IH H) as [rest Hrest].
    exists rest. cbn [app]. by f_equal.
Qed.

Section Oleutils.
Context (answer : oleutils.GUID -> Z * option (list Z)).

Lemma clsid_to_wstring_run (riid : oleutils.GUID)
    (m : gmap positive (list Z)) :
  oleutils.clsid_to_wstring answer riid m
  = (if (answer riid).1 <? 0 then Err (answer riid).1
     else Ok (oleutils.c_string (default [] (answer riid).2)), m).
Proof.
  unfold oleutils.clsid_to_wstring, oleutils.StringFromCLSID.
  destruct (answer riid) as [hr [block|]]; cbn [fst snd].
  - set (p := fresh (dom m)).
    assert (Hp : m !! p = None) by apply not_elem_of_dom, is_fresh.
    cbn [mbind option_bind]. rewrite lookup_insert_eq. cbn [default].
    unfold oleutils.FAILED, oleutils.unique_cotaskmem_destroy.
    rewrite delete_insert_eq, delete_id by done.
    by destruct (hr <? 0).
  - unfold oleutils.FAILED, oleutils.unique_cotaskmem_destroy.
    by destruct (hr <? 0).
Qed.

(** X19.  On every answer of [StringFromCLSID] for which the behaviour of
    [clsid_to_wstring] is defined, a failure or a success with a block
    that holds a NUL, the function leaves the memory of the task allocator
    as it found it: the block that the call allocated is freed when the
    function returns and when it throws.  It throws exactly the negative
    [HRESULT]s; a string it returns is the text, free of NUL, that the
    block holds before its first NUL. *)
Theorem clsid_to_wstring_frees (riid : oleutils.GUID)
    (m : gmap positive (list Z)) :
  oleutils.well_defined (answer riid) = true ->
  let run := oleutils.clsid_to_wstring answer riid m in
  run.2 = m
  /\ (forall e, run.1 = Err e <-> (answer riid).1 = e /\ e < 0)
  /\ (forall s, run.1 = Ok s ->
        0 <= (answer riid).1
        /\ no_NUL s = true
        /\ exists rest, (answer riid).2 = Some (s ++ NUL :: rest)).
Proof.
  intros Hdef. cbv zeta. rewrite clsid_to_wstring_run. cbn [fst snd].
  split; [done|].
  unfold oleutils.well_defined, oleutils.FAILED in Hdef.
  destruct ((answer riid).1 <? 0) eqn:Hhr.
  - apply Z.ltb_lt in Hhr. split; [|done].
    intros e. split; [by intros [= <-]|by intros [<- _]].
  - apply Z.ltb_ge in Hhr. split.
    + intros e. split; [done|]. intros [<- He]. lia.
    + intros s [= <-]. split; [done|]. split; [apply c_string_no_NUL|].
      cbn [orb] in Hdef.
      destruct (answer riid).2 as [block|]; [|done].
      destruct (c_string_split block Hdef) as [rest Hblock].
      exists rest. cbn [default]. by f_equal.
Qed.

(** X20.  When [StringFromCLSID] succeeds and the block it allocated holds the
    text [s], free of NUL, and its terminator, [clsid_to_wstring] returns
    [s]; a success code other than [S_OK] is no failure. *)
Theorem clsid_to_wstring_text (riid : oleutils.GUID)
    (m : gmap positive (list Z)) (hr : Z) (s rest : wstring) :
  answer riid = (hr, Some (s ++ NUL :: rest)) ->
  0 <= hr -> no_NUL s = true ->
  oleutils.clsid_to_wstring answer riid m = (Ok s, m).
Proof.
  intros Hans Hhr Hs. rewrite clsid_to_wstring_run, Hans. cbn [fst snd default].
  destruct (hr <? 0) eqn:Hneg; [apply Z.ltb_lt in Hneg; lia|].
  unfold id. by rewrite c_string_terminated.
Qed.

End Oleutils.

(** * The further results on concrete inputs *)

Lemma integer_payload_round_trip_witness :
  exists c,
    writes_once sim.answer c (initial_world sim.sample)
      (Key_set_dword_value sim.answer {| m_hKey := 256 |} [110] 42
                           (initial_world sim.sample))
    /\ size (payload c) = 4
    /\ forallb is_BYTE (payload c) = true
    /\ le_value (payload c) = 42.
Proof.
  apply (proj1 (integer_payload_round_trip sim.answer {| m_hKey := 256 |}
                  [110] (initial_world sim.sample))).
  lia.
Defined.

Lemma text_payload_round_trip_witness :
  exists c c',
    writes_once sim.answer c (initial_world sim.sample)
      (Key_set_string_value sim.answer {| m_hKey := 256 |} [115] [37; 104; 37]
                            (initial_world sim.sample))
    /\ writes_once sim.answer c' (initial_world sim.sample)
         (Key_set_expanded_string_value sim.answer {| m_hKey := 256 |} [115]
                                        [37; 104; 37]
                                        (initial_world sim.sample))
    /\ wchar_units (payload c) = [37; 104; 37; 0]
    /\ wchar_units (payload c') = [37; 104; 37; 0].
Proof.
  apply (text_payload_round_trip sim.answer {| m_hKey := 256 |} [115]
           [37; 104; 37] (initial_world sim.sample)).
  - reflexivity.
  - reflexivity.
Defined.

Lemma set_multistring_value_writes_wire_witness :
  payload (RegSetValueExW 256 [109] 0 REG_MULTI_SZ
             (wchar_bytes (multistring_wire [[120]; [121]]))
             (size (multistring_wire [[120]; [121]]) * sizeof_wchar_t))
  = [120; 0; 0; 0; 121; 0; 0; 0; 0; 0].
Proof.
  destruct (set_multistring_value_writes_wire sim.answer {| m_hKey := 256 |}
              [109] [[120]; [121]] (initial_world sim.sample))
    as (_ & Hp & _).
  - done.
  - reflexivity.
  - etransitivity; [exact Hp|reflexivity].
Defined.

Lemma enumerate_empty_key_witness :
  (Key_enum_values sim.answer {| m_hKey := 256 |}
     (initial_world {| sim.subkeys := []; sim.values := [] |})).1
  = Ok [].
Proof.
  destruct (enumerate_empty_key sim.answer {| m_hKey := 256 |}
              (initial_world {| sim.subkeys := []; sim.values := [] |}))
    as (_ & Hvalues & _).
  destruct (Hvalues eq_refl eq_refl) as (w' & Hrun & _).
  by rewrite Hrun.
Defined.

Lemma sim_unchanged_by_reads (hKey : Z) (σ : sim.state) :
  unchanged_by_reads sim.answer hKey σ.
Proof.
  intros c Hc. destruct c; try discriminate Hc; cbn [sim.answer].
  - done.
  - destruct (sim.subkeys σ !! _); [destruct (_ <? _)|]; done.
  - destruct (sim.values σ !! _) as [[n [t b]]|]; [destruct (_ && _)|]; done.
Qed.

Lemma sample_descending_subkeys (hKey : Z) :
  holds_subkeys sim.answer hKey sample_descending
    [[67; 67; 67]; [66; 66]; [65]].
Proof.
  split; [apply sim_unchanged_by_reads|]. cbv zeta.
  split; [reflexivity|]. split; [reflexivity|]. split; [reflexivity|].
  split; [repeat constructor; by vm_compute|].
  intros i name buf Hi.
  destruct i as [|[|[|i]]]; cbn in Hi; try discriminate Hi;
    injection Hi as <-; split; reflexivity.
Qed.

Lemma sample_descending_value_names (hKey : Z) :
  holds_value_names sim.answer hKey sample_descending
    [[110; 110; 110]; [115; 115]; [98]].
Proof.
  split; [apply sim_unchanged_by_reads|]. cbv zeta.
  split; [reflexivity|]. split; [reflexivity|]. split; [reflexivity|].
  split; [repeat constructor; by vm_compute|].
  intros i name buf Hi.
  destruct i as [|[|[|i]]]; cbn in Hi; try discriminate Hi;
    injection Hi as <-; split; reflexivity.
Qed.

Lemma sample_descending_values (hKey : Z) :
  holds_values sim.answer hKey sample_descending
    (sim.values sample_descending).
Proof.
  split; [apply sim_unchanged_by_reads|]. cbv zeta.
  split; [reflexivity|]. split; [reflexivity|]. split; [reflexivity|].
  split; [repeat constructor; by vm_compute|].
  intros i it nameBuf valBuf Hi.
  destruct i as [|[|[|i]]]; cbn in Hi; try discriminate Hi;
    injection Hi as <-; repeat split; reflexivity.
Qed.

Lemma enum_subkeys_complete_witness :
  (Key_enum_subkeys sim.answer {| m_hKey := 256 |}
     (initial_world sample_descending)).1
  = Ok [[67; 67; 67]; [66; 66]; [65]].
Proof.
  destruct (enum_subkeys_complete sim.answer {| m_hKey := 256 |}
              (initial_world sample_descending) _
              (sample_descending_subkeys 256))
    as (w' & Hrun & _).
  by rewrite Hrun.
Defined.

Lemma enum_value_names_complete_witness :
  (Key_enum_value_names sim.answer {| m_hKey := 256 |}
     (initial_world sample_descending)).1
  = Ok [[110; 110; 110]; [115; 115]; [98]].
Proof.
  destruct (enum_value_names_complete sim.answer {| m_hKey := 256 |}
              (initial_world sample_descending) _
              (sample_descending_value_names 256))
    as (w' & Hrun & _).
  by rewrite Hrun.
Defined.

Lemma enum_values_complete_witness :
  exists vals w',
    Key_enum_values sim.answer {| m_hKey := 256 |}
      (initial_world sample_descending) = (Ok vals, w')
    /\ Forall2 (value_is (heap w')) vals
         [([110; 110; 110], (REG_BINARY, [1; 2; 3]));
          ([115; 115], (REG_SZ, [104; 0; 0; 0]));
          ([98], (REG_NONE, []))].
Proof.
  destruct (enum_values_complete sim.answer {| m_hKey := 256 |}
              (initial_world sample_descending) _
              (sample_descending_values 256))
    as (vals & w' & Hrun & _ & Hvals & _).
  exists vals, w'. split; [exact Hrun|exact Hvals].
Defined.

Lemma clsid_to_wstring_frees_witness :
  let run :=
    oleutils.clsid_to_wstring (fun _ => (0, Some [123; 48; 125; 0]))
      {| oleutils.Data1 := 0; oleutils.Data2 := 0; oleutils.Data3 := 0;
         oleutils.Data4 := [0; 0; 0; 0; 0; 0; 0; 0] |} ∅ in
  run.2 = ∅ /\ (forall e, run.1 = Err e <-> 0 = e /\ e < 0).
Proof.
  destruct (clsid_to_wstring_frees (fun _ => (0, Some [123; 48; 125; 0]))
              {| oleutils.Data1 := 0; oleutils.Data2 := 0;
                 oleutils.Data3 := 0;
                 oleutils.Data4 := [0; 0; 0; 0; 0; 0; 0; 0] |} ∅ eq_refl)
    as (Hfreed & Hthrows & _).
  split; [exact Hfreed|exact Hthrows].
Defined.

Lemma clsid_to_wstring_text_witness :
  oleutils.clsid_to_wstring (fun _ => (0, Some [123; 48; 125; 0]))
    {| oleutils.Data1 := 0; oleutils.Data2 := 0; oleutils.Data3 := 0;
       oleutils.Data4 := [0; 0; 0; 0; 0; 0; 0; 0] |} ∅
  = (Ok [123; 48; 125], ∅).
Proof.
  apply (clsid_to_wstring_text _ _ _ 0 [123; 48; 125] []).
  - reflexivity.
  - lia.
  - reflexivity.
Defined.

(** The text "%h%", placeholder syntax and all. *)
Lemma expanded_string_same_payload_witness :
  let this := {| m_hKey := 256 |} in
  let w := initial_world sim.sample in
  exists lpData cbData,
    writes_once sim.answer
      (RegSetValueExW 256 [115] 0 REG_EXPAND_SZ lpData cbData) w
      (Key_set_expanded_string_value sim.answer this [115] [37; 104; 37] w)
    /\ payload (RegSetValueExW 256 [115] 0 REG_EXPAND_SZ lpData cbData)
       = [37; 0; 104; 0; 37; 0; 0; 0].
Proof.
  intros this w.
  destruct (expanded_string_same_payload sim.answer this [115] [37; 104; 37]
              w)
    as (lpData & cbData & _ & Hrun & _ & _ & _ & Hfit & _).
  assert (H1 : (size [37; 104; 37] + 1) * sizeof_wchar_t < 2 ^ 32)
    by (vm_compute; reflexivity).
  exists lpData, cbData. split; [exact Hrun|].
  etransitivity; [exact (Hfit H1)|reflexivity].
Defined.

(** A string of 2^31 - 1 code units takes, with its terminator, 2^32
    bytes; the byte count that [set_expanded_string_value] passes is 0, so
    that no byte of the string reaches the registry. *)
Lemma set_expanded_string_value_size_wraps :
  let val := replicate (Z.to_nat (2 ^ 31 - 1)) 37 in
  let this := {| m_hKey := 256 |} in
  let w := initial_world sim.sample in
  let c := RegSetValueExW 256 [115] 0 REG_EXPAND_SZ (c_str_bytes val) 0 in
  writes_once sim.answer c w
    (Key_set_expanded_string_value sim.answer this [115] val w)
  /\ (size val + 1) * sizeof_wchar_t = 2 ^ 32
  /\ written_size c = 0
  /\ payload c = []
  /\ payload c <> wchar_bytes (val ++ [NUL]).
Proof.
  intros val this w c.
  assert (Hsize : size val = 2 ^ 31 - 1).
  { unfold size, val. rewrite length_replicate. apply Z2Nat.id. lia. }
  assert (Hbytes : (size val + 1) * sizeof_wchar_t = 2 ^ 32).
  { rewrite Hsize. reflexivity. }
  assert (Hwrap : to_DWORD (to_size_t ((size val + 1) * sizeof_wchar_t)) = 0).
  { rewrite Hbytes. reflexivity. }
  split.
  { unfold Key_set_expanded_string_value. rewrite Hwrap.
    apply set_value_run. }
  split; [exact Hbytes|]. split; [reflexivity|]. split; [reflexivity|].
  unfold c, payload.
  change (take (Z.to_nat 0) (c_str_bytes val)) with (@nil Z).
  intros Hnil. symmetry in Hnil. apply (f_equal length) in Hnil.
  rewrite wchar_bytes_length, length_app in Hnil. cbn [length] in Hnil.
  unfold size in Hsize. lia.
Qed.
